(** * The zookeeper registry watcher (database/registry/zookeeper/watch.go)

    A shallow embedding of [Watcher] and of the goroutines it starts:
    [watchService], [watchDir] (with [handleZkPathEvent] and
    [handleZkNodeEvent]) and [watchServiceNode], together with the facade
    methods [Notify], [Valid], [Close] and [IsClosed].

    Goroutines are modelled as a pool of tasks, each with a program point
    named after the source line it stands at, over one shared [Watcher]
    value.  One transition is one access to shared state (channel, mutex,
    wait group, path set), one call into the zookeeper client, or one [go]
    statement.  Answers of the zookeeper client and the branch a [select]
    takes are inputs of the transition.

    The last part of the file is the sharded map of sync/hash_map.go. *)

From stdpp Require Import base list strings gmap.
From Stdlib Require Import ZArith Lia.

Local Open Scope Z_scope.

(** ** Constants of watch.go *)

Definition MAX_TIMES : Z := 15.
Definition Wactch_Event_Channel_Size : nat := 32.
Definition ZKCLIENT_EVENT_CHANNEL_SIZE : nat := 4.

(** ** Types of the go-zookeeper client that the watcher inspects *)

Inductive EventType :=
| EventNodeCreated
| EventNodeDeleted
| EventNodeDataChanged
| EventNodeChildrenChanged
| EventSession
| EventNotWatching.

Inductive State :=
| StateUnknown
| StateDisconnected
| StateConnecting
| StateAuthFailed
| StateConnectedReadOnly
| StateSaslAuthenticated
| StateExpired
| StateConnected
| StateHasSession.

(** [zk.Event]: the watcher branches on [Type] and passes [Path] on; the
    other fields are only logged. *)
Record zkEvent := ZkEvent { Type_ : EventType; Path : string }.

(** ** Go channels

    A buffered channel: pending values, capacity, and whether it was closed. *)

Record chan (A : Type) := Chan { buf : list A; cap : nat; closed : bool }.
Arguments Chan {A} _ _ _.
Arguments buf {A} _.
Arguments cap {A} _.
Arguments closed {A} _.

Inductive outcome (A : Type) :=
| Ready (a : A)
| Blocks
| Panics.
Arguments Ready {A} _.
Arguments Blocks {A}.
Arguments Panics {A}.

Definition make_chan {A : Type} (n : nat) : chan A := Chan [] n false.

(** [c <- x]: panics on a closed channel, blocks on a full one. *)
Definition chan_send {A : Type} (x : A) (c : chan A) : outcome (chan A) :=
  if closed c then Panics
  else if Nat.ltb (length (buf c)) (cap c)
       then Ready (Chan (buf c ++ [x]) (cap c) (closed c))
       else Blocks.

(** [<-c]: the oldest pending value; on a closed and drained channel the
    zero value (here [None]); otherwise it blocks. *)
Definition chan_recv {A : Type} (c : chan A) : outcome (option A * chan A) :=
  match buf c with
  | x :: rest => Ready (Some x, Chan rest (cap c) (closed c))
  | [] => if closed c then Ready (None, c) else Blocks
  end.

(** [close(c)]: panics when [c] is closed already. *)
Definition chan_close {A : Type} (c : chan A) : outcome (chan A) :=
  if closed c then Panics else Ready (Chan (buf c) (cap c) true).

(** A receive in a [select] with a [default] branch, on a channel nobody
    sends on: ready exactly when the channel is closed. *)
Definition recv_ready {A : Type} (c : chan A) : bool :=
  match chan_recv c with
  | Ready _ => true
  | _ => false
  end.

(** ** [contains] (watch.go 114-122) *)

Fixpoint contains (s : list string) (e : string) : bool :=
  match s with
  | [] => false
  | a :: s' => if String.eqb a e then true else contains s' e
  end.

(** ** Collaborators that are not part of the watcher

    The record codec and filter of [gxregistry], [path.Join] of the Go
    library and two constants of [gxregistry]. *)

Class Collaborators := {
  ServiceAttr : Type;
  Service : Type;
  (** zero value of [gxregistry.ServiceAttr] *)
  ServiceAttr_zero : ServiceAttr;
  (** [attr.UnmarshalPath(gxstrings.Slice(n))]: the receiver after the call
      and whether the error is nil *)
  UnmarshalPath : ServiceAttr -> string -> ServiceAttr * bool;
  (** [conf.Filter(attr)] *)
  ServiceAttr_Filter : ServiceAttr -> ServiceAttr -> bool;
  (** [gxregistry.DecodeService(zkData)]; [None] is a non-nil error *)
  DecodeService : list Byte.byte -> option Service;
  (** [*service.Attr] *)
  Attr : Service -> ServiceAttr;
  (** [path.Join(a, b)] *)
  path_Join : string -> string -> string;
  DefaultServiceRoot : string;
  (** seconds per failure in the retry delay *)
  REGISTRY_CONN_DELAY : Z;
}.

Section Watcher.
Context `{Collaborators}.

(** ** Data of the watcher (watch.go 34-47) *)

(** [registry.ServiceURLAdd] and [registry.ServiceURLDel] *)
Inductive ServiceURLEvent := ServiceURLAdd | ServiceURLDel.

(** [gxregistry.EventResult{Action, Service}] *)
Record EventResult := MkEventResult { Action : ServiceURLEvent; Service_ : Service }.

(** A Go [error] value, by its message. *)
Definition error := string.

Record event := Event { res : option EventResult; err : option error }.

(** The two fields of [gxregistry.WatchOptions] the watcher reads. *)
Record WatchOptions := MkWatchOptions { Root : string; Filter : ServiceAttr }.

(** What the watcher reads of [*Registry] besides its client: [reg.done]. *)
Record Registry := MkRegistry { reg_done : chan unit }.

(** [sync.Mutex] is [mutex]: [None] when free, else the goroutine that
    locked it.  [sync.WaitGroup] is its counter [wg]. *)
Record Watcher := MkWatcher {
  opts : WatchOptions;
  reg : Registry;
  events : chan event;
  done : chan unit;
  mutex : option nat;
  pathSet : list string;
  wg : Z;
}.

Definition with_events (c : chan event) (w : Watcher) : Watcher :=
  MkWatcher (opts w) (reg w) c (done w) (mutex w) (pathSet w) (wg w).
Definition with_done (c : chan unit) (w : Watcher) : Watcher :=
  MkWatcher (opts w) (reg w) (events w) c (mutex w) (pathSet w) (wg w).
Definition with_mutex (m : option nat) (w : Watcher) : Watcher :=
  MkWatcher (opts w) (reg w) (events w) (done w) m (pathSet w) (wg w).
Definition with_pathSet (ps : list string) (w : Watcher) : Watcher :=
  MkWatcher (opts w) (reg w) (events w) (done w) (mutex w) ps (wg w).
Definition with_wg (n : Z) (w : Watcher) : Watcher :=
  MkWatcher (opts w) (reg w) (events w) (done w) (mutex w) (pathSet w) n.
Definition with_reg (r : Registry) (w : Watcher) : Watcher :=
  MkWatcher (opts w) r (events w) (done w) (mutex w) (pathSet w) (wg w).

(** ** Facade methods that are one [select] *)

(** [IsClosed] (416-424) *)
Definition IsClosed (w : Watcher) : bool := recv_ready (done w).

(** [Valid] (388-405); the argument is what [ZkConn().State()] answers. *)
Definition Valid (zkState : State) (w : Watcher) : bool :=
  if IsClosed w then false
  else if recv_ready (reg_done (reg w)) then false
  else match zkState with
       | StateConnected | StateHasSession => true
       | _ => false
       end.

(** The two cases of the [select] in [Notify]. *)
Inductive notify_case := CaseDone | CaseEvents.

Definition watcher_stopped : error := "watcher stopped"%string.

(** [Notify] (378-386).  [pick] is the case the [select] takes; the result
    is [Blocks] when that case is not ready.  Go takes any one of the ready
    cases, so every [pick] with a [Ready] result is a possible return. *)
Definition Notify (pick : notify_case) (w : Watcher)
  : outcome ((option EventResult * option error) * Watcher) :=
  match pick with
  | CaseDone =>
      match chan_recv (done w) with
      | Ready (_, d) => Ready ((None, Some watcher_stopped), with_done d w)
      | _ => Blocks
      end
  | CaseEvents =>
      match chan_recv (events w) with
      | Ready (Some r, c) => Ready ((res r, err r), with_events c w)
      | Ready (None, c) => Ready ((None, None), with_events c w)
      | _ => Blocks
      end
  end.

(** ** Loop bodies shared by the sequential and the concurrent reading *)

(** The [switch] of [watchServiceNode] (93-104): [Some b] is [return b],
    [None] leaves the switch and goes round the [for] again. *)
Definition node_switch (ty : EventType) : option bool :=
  match ty with
  | EventNodeDataChanged => None
  | EventNodeCreated => None
  | EventNotWatching => None
  | EventNodeDeleted => Some true
  | _ => None
  end.

(** [watchDir] 260-263: the failure counter after a failed [GetChildrenW]. *)
Definition bump (failTimes : Z) : Z :=
  let failTimes := failTimes + 1 in
  if MAX_TIMES <=? failTimes then MAX_TIMES else failTimes.

(** The argument of [time.After] at 278, in seconds. *)
Definition backoff_seconds (failTimes : Z) : Z := failTimes * REGISTRY_CONN_DELAY.

(** [watchDir] 306-310, the non-root branch: the failure counter and the
    known children handed to [handleZkNodeEvent]. *)
Definition rearm (failTimes : Z) (children : list string) : Z * list string :=
  let children := if failTimes =? 0 then [] else children in
  (0, children).

(** ** Goroutines

    Program points; the comment gives the source lines a point stands at. *)

(** [watchService] (324-376) *)
Inductive service_pc :=
| SStart                                                  (* 333-337 *)
| SGetChildren                                            (* 340-347 *)
| SRange (attr : ServiceAttr) (children : list string).   (* 350-369, 371 *)

(** [handleZkPathEvent] (124-162) *)
Inductive path_pc :=
| PGetChildren                                            (* 125-129 *)
| PRange (attr : ServiceAttr) (newChildren : list string).  (* 139-161 *)

(** [handleZkNodeEvent] (164-218) *)
Inductive handler_pc :=
| HGetChildren                                            (* 169-173 *)
| HRange (newChildren : list string)                      (* 183-188 *)
| HGet (newNode : string) (rest : list string)            (* 190-204 *)
| HSend (newNode : string) (service : Service) (rest : list string)   (* 206 *)
| HSpawn (newNode : string) (service : Service) (rest : list string). (* 208 *)

(** [watchDir] (222-321).  [DPath] and [DNode] are calls in progress of the
    two handlers, with their arguments. *)
Inductive dir_pc :=
| DLock                                                   (* 233 *)
| DCheck                                                  (* 234 *)
| DAppend (flag : bool)                                   (* 235-237 *)
| DUnlock (flag : bool)                                   (* 238-242 *)
| DWgAdd                                                  (* 244-254 *)
| DGetChildrenW (failTimes : Z)                           (* 257-264 *)
| DBackoff (failTimes : Z)                                (* 266-291 *)
| DSelect (failTimes : Z) (children : list string)        (* 294-319 *)
| DPath (failTimes : Z) (zkRoot : string) (children : list string) (pc : path_pc)
| DNode (failTimes : Z) (zkPath : string) (children : list string) (pc : handler_pc)
| DDeferDone                                              (* 248-249 *)
| DDeferLock                                              (* 250 *)
| DDeferUnlock.                                           (* 251 *)

(** The goroutine of 208-216: [watchServiceNode] (77-112), then the send. *)
Inductive node_pc :=
| NWgAdd                                                  (* 78 *)
| NExistW                                                 (* 83-87 *)
| NSelect                                                 (* 89-108 *)
| NDefer (deleted : bool)                                 (* 79, 211 *)
| NSendDel.                                               (* 213 *)

(** [Close] (407-413), run by the caller. *)
Inductive close_pc :=
| CIsClosed                                               (* 408 *)
| CCloseDone                                              (* 409 *)
| CWait                                                   (* 412 *)
| CReturned.

Inductive task :=
| TService (pc : service_pc)
| TDir (zkPath : string) (pc : dir_pc)
| TNode (node : string) (service : Service) (pc : node_pc)
| TClose (pc : close_pc)
| TExit.

(** What a transition needs from outside the goroutine. *)
Inductive input :=
| Tau
| AnsChildren (r : option (list string))   (* GetChildren, GetChildrenW; None: err != nil *)
| AnsGet (r : option (list Byte.byte))     (* Get *)
| AnsExistW (ok : bool)                    (* ExistW; false: err != nil *)
| WakeZk (e : zkEvent)                     (* the watch channel delivers e *)
| WakeDone                                 (* <-w.done *)
| WakeRegDone                              (* <-w.reg.done *)
| WakeTimer                                (* <-time.After(...) *)
| WakeReconnect.                           (* <-event *)

(** Result of one transition: the watcher, the goroutine itself, the
    goroutines it started, and the events it queued on [w.events], each
    with the instance path it is about. *)
Record effect := MkEffect {
  e_watcher : Watcher;
  e_self : task;
  e_go : list task;
  e_sent : list (string * EventResult);
}.

Definition and_then {A B : Type} (o : outcome A) (f : A -> outcome B) : outcome B :=
  match o with
  | Ready a => f a
  | Blocks => Blocks
  | Panics => Panics
  end.

Definition goto (tk : task) (w : Watcher) : outcome effect :=
  Ready (MkEffect w tk [] []).

Definition go_then (child tk : task) (w : Watcher) : outcome effect :=
  Ready (MkEffect w tk [child] []).

(** [w.Lock()], [w.Unlock()], [w.wg.Add(n)] *)
Definition Lock (t : nat) (w : Watcher) : outcome Watcher :=
  match mutex w with
  | None => Ready (with_mutex (Some t) w)
  | Some _ => Blocks
  end.

Definition Unlock (w : Watcher) : outcome Watcher :=
  match mutex w with
  | None => Panics
  | Some _ => Ready (with_mutex None w)
  end.

Definition wg_Add (n : Z) (w : Watcher) : outcome Watcher :=
  if wg w + n <? 0 then Panics else Ready (with_wg (wg w + n) w).

(** [w.events <- event{&gxregistry.EventResult{action, service}, nil}] *)
Definition send_event (node : string) (r : EventResult) (tk : task) (w : Watcher)
  : outcome effect :=
  and_then (chan_send (Event (Some r) None) (events w))
    (fun c => Ready (MkEffect (with_events c w) tk [] [(node, r)])).

(** The body of the [range] loops at 139-161 and 350-369 for one child
    that is not skipped by [contains]: the receiver [attr] after
    [UnmarshalPath], and whether a [watchDir] goroutine is started. *)
Definition accept_path (conf attr : ServiceAttr) (n : string) : ServiceAttr * bool :=
  let '(attr, ok) := UnmarshalPath attr n in
  if negb ok then (attr, false)
  else if negb (ServiceAttr_Filter conf attr) then (attr, false)
  else (attr, true).

(** [watchService] *)
Definition watchService_step (pc : service_pc) (i : input) (w : Watcher)
  : outcome effect :=
  let zkPath := Root (opts w) in
  match pc, i with
  | SStart, Tau =>
      if Nat.eqb (String.length zkPath) 0 then goto TExit w
      else goto (TService SGetChildren) w
  | SGetChildren, AnsChildren r =>
      let children := match r with Some c => c | None => [] end in
      goto (TService (SRange ServiceAttr_zero children)) w
  | SRange attr (c :: rest), Tau =>
      let '(attr, ok) := accept_path (Filter (opts w)) attr c in
      if ok then go_then (TDir (path_Join zkPath c) DLock) (TService (SRange attr rest)) w
      else goto (TService (SRange attr rest)) w
  | SRange attr [], Tau => go_then (TDir zkPath DLock) TExit w
  | _, _ => Blocks
  end.

(** [handleZkPathEvent(zkRoot, children)]; [ret] is where the caller goes on. *)
Definition handleZkPathEvent_step (here : path_pc -> task) (ret : task)
    (zkRoot : string) (children : list string)
    (pc : path_pc) (i : input) (w : Watcher) : outcome effect :=
  match pc, i with
  | PGetChildren, AnsChildren None => goto ret w
  | PGetChildren, AnsChildren (Some newChildren) =>
      goto (here (PRange ServiceAttr_zero newChildren)) w
  | PRange attr (n :: rest), Tau =>
      if contains children n then goto (here (PRange attr rest)) w
      else
        let '(attr, ok) := accept_path (Filter (opts w)) attr n in
        if ok then go_then (TDir (path_Join zkRoot n) DLock) (here (PRange attr rest)) w
        else goto (here (PRange attr rest)) w
  | PRange attr [], Tau => goto ret w
  | _, _ => Blocks
  end.

(** [handleZkNodeEvent(zkPath, children)] *)
Definition handleZkNodeEvent_step (here : handler_pc -> task) (ret : task)
    (zkPath : string) (children : list string)
    (pc : handler_pc) (i : input) (w : Watcher) : outcome effect :=
  match pc, i with
  | HGetChildren, AnsChildren None => goto ret w
  | HGetChildren, AnsChildren (Some newChildren) => goto (here (HRange newChildren)) w
  | HRange (n :: rest), Tau =>
      if contains children n then goto (here (HRange rest)) w
      else goto (here (HGet (path_Join zkPath n) rest)) w
  | HRange [], Tau => goto ret w
  | HGet newNode rest, AnsGet None => goto (here (HRange rest)) w
  | HGet newNode rest, AnsGet (Some zkData) =>
      match DecodeService zkData with
      | None => goto (here (HRange rest)) w
      | Some service =>
          if negb (ServiceAttr_Filter (Filter (opts w)) (Attr service))
          then goto (here (HRange rest)) w
          else goto (here (HSend newNode service rest)) w
      end
  | HSend newNode service rest, Tau =>
      send_event newNode (MkEventResult ServiceURLAdd service)
        (here (HSpawn newNode service rest)) w
  | HSpawn newNode service rest, Tau =>
      go_then (TNode newNode service NWgAdd) (here (HRange rest)) w
  | _, _ => Blocks
  end.

(** [watchDir(zkPath)], run by goroutine [t] *)
Definition watchDir_step (t : nat) (zkPath : string) (pc : dir_pc) (i : input)
    (w : Watcher) : outcome effect :=
  let at_ := TDir zkPath in
  match pc, i with
  | DLock, Tau => and_then (Lock t w) (goto (at_ DCheck))
  | DCheck, Tau => goto (at_ (DAppend (contains (pathSet w) zkPath))) w
  | DAppend flag, Tau =>
      goto (at_ (DUnlock flag))
        (if negb flag then with_pathSet (pathSet w ++ [zkPath]) w else w)
  | DUnlock flag, Tau =>
      and_then (Unlock w) (goto (if flag then TExit else at_ DWgAdd))
  | DWgAdd, Tau => and_then (wg_Add 1 w) (goto (at_ (DGetChildrenW 1)))
  | DGetChildrenW failTimes, AnsChildren None =>
      goto (at_ (DBackoff (bump failTimes))) w
  | DGetChildrenW failTimes, AnsChildren (Some children) =>
      goto (at_ (DSelect failTimes children)) w
  | DBackoff failTimes, WakeTimer => goto (at_ (DGetChildrenW failTimes)) w
  | DBackoff failTimes, WakeDone =>
      if recv_ready (done w) then goto (at_ DDeferDone) w else Blocks
  | DBackoff failTimes, WakeReconnect =>
      goto (at_ (DNode failTimes zkPath [] HGetChildren)) w
  | DSelect failTimes children, WakeZk zkEvent =>
      match Type_ zkEvent with
      | EventNodeChildrenChanged =>
          if String.eqb zkPath (Root (opts w))
          then goto (at_ (DPath failTimes (Path zkEvent) children PGetChildren)) w
          else
            let '(failTimes, children) := rearm failTimes children in
            goto (at_ (DNode failTimes (Path zkEvent) children HGetChildren)) w
      | _ => goto (at_ (DGetChildrenW failTimes)) w
      end
  | DSelect failTimes children, WakeRegDone =>
      if recv_ready (reg_done (reg w)) then goto (at_ DDeferDone) w else Blocks
  | DPath failTimes zkRoot children hpc, _ =>
      handleZkPathEvent_step (fun p => at_ (DPath failTimes zkRoot children p))
        (at_ (DGetChildrenW failTimes)) zkRoot children hpc i w
  | DNode failTimes zkPath' children hpc, _ =>
      handleZkNodeEvent_step (fun p => at_ (DNode failTimes zkPath' children p))
        (at_ (DGetChildrenW failTimes)) zkPath' children hpc i w
  | DDeferDone, Tau => and_then (wg_Add (-1) w) (goto (at_ DDeferLock))
  | DDeferLock, Tau => and_then (Lock t w) (goto (at_ DDeferUnlock))
  | DDeferUnlock, Tau => and_then (Unlock w) (goto TExit)
  | _, _ => Blocks
  end.

(** The goroutine of 208-216 around [watchServiceNode(node)] *)
Definition watchServiceNode_step (node : string) (service : Service)
    (pc : node_pc) (i : input) (w : Watcher) : outcome effect :=
  let at_ := TNode node service in
  match pc, i with
  | NWgAdd, Tau => and_then (wg_Add 1 w) (goto (at_ NExistW))
  | NExistW, AnsExistW ok => goto (at_ (if ok then NSelect else NDefer false)) w
  | NSelect, WakeZk zkEvent =>
      match node_switch (Type_ zkEvent) with
      | Some b => goto (at_ (NDefer b)) w
      | None => goto (at_ NExistW) w
      end
  | NSelect, WakeDone =>
      if recv_ready (done w) then goto (at_ (NDefer false)) w else Blocks
  | NDefer deleted, Tau =>
      and_then (wg_Add (-1) w) (goto (if deleted then at_ NSendDel else TExit))
  | NSendDel, Tau => send_event node (MkEventResult ServiceURLDel service) TExit w
  | _, _ => Blocks
  end.

(** [Close] *)
Definition Close_step (pc : close_pc) (i : input) (w : Watcher) : outcome effect :=
  match pc, i with
  | CIsClosed, Tau => goto (TClose (if negb (IsClosed w) then CCloseDone else CWait)) w
  | CCloseDone, Tau =>
      and_then (chan_close (done w)) (fun d => goto (TClose CWait) (with_done d w))
  | CWait, Tau => if wg w =? 0 then goto (TClose CReturned) w else Blocks
  | _, _ => Blocks
  end.

(** [Close] run through by one caller while no other goroutine moves: the
    watcher when it returns, [Blocks] while [w.wg.Wait()] waits. *)
Definition Close (w : Watcher) : outcome Watcher :=
  and_then (Close_step CIsClosed Tau w) (fun e1 =>
    match e_self e1 with
    | TClose CCloseDone =>
        and_then (Close_step CCloseDone Tau (e_watcher e1)) (fun e2 =>
          and_then (Close_step CWait Tau (e_watcher e2)) (fun e3 =>
            Ready (e_watcher e3)))
    | _ =>
        and_then (Close_step CWait Tau (e_watcher e1)) (fun e3 =>
          Ready (e_watcher e3))
    end).

Definition task_step (t : nat) (tk : task) (i : input) (w : Watcher) : outcome effect :=
  match tk with
  | TService pc => watchService_step pc i w
  | TDir zkPath pc => watchDir_step t zkPath pc i w
  | TNode node service pc => watchServiceNode_step node service pc i w
  | TClose pc => Close_step pc i w
  | TExit => Blocks
  end.

(** ** The running system

    The watcher, its goroutines (a goroutine is named by its position in
    [tasks]), the events queued on [w.events] so far, oldest first, each with
    the instance path it is about, and whether some goroutine panicked. *)
Record world := MkWorld {
  watcher : Watcher;
  tasks : list task;
  relay_log : list (string * EventResult);
  crashed : bool;
}.

Inductive label :=
| LTask (t : nat) (i : input)    (* goroutine t moves *)
| LRegClose                      (* the registry closes reg.done *)
| LClose                         (* a caller enters w.Close() *)
| LNotify (pick : notify_case).  (* a caller runs w.Notify() *)

(** [NewWatcher] (49-74).  [r] is [None] when the registry is not a
    [*Registry]; [options] is the result of applying [opts]. *)
Definition NewWatcher (r : option Registry) (options : WatchOptions) : option world :=
  match r with
  | None => None
  | Some reg =>
      let options :=
        if String.eqb (Root options) ""
        then MkWatchOptions DefaultServiceRoot (Filter options)
        else options in
      let w := MkWatcher options reg
                 (make_chan Wactch_Event_Channel_Size) (make_chan 1) None [] 0 in
      Some (MkWorld w [TService SStart] [] false)
  end.

Definition step (l : label) (σ : world) : option world :=
  if crashed σ then None
  else match l with
  | LTask t i =>
      match tasks σ !! t with
      | None => None
      | Some tk =>
          match task_step t tk i (watcher σ) with
          | Ready e =>
              Some (MkWorld (e_watcher e) (<[t := e_self e]> (tasks σ) ++ e_go e)
                      (relay_log σ ++ e_sent e) false)
          | Blocks => None
          | Panics => Some (MkWorld (watcher σ) (tasks σ) (relay_log σ) true)
          end
      end
  | LRegClose =>
      match chan_close (reg_done (reg (watcher σ))) with
      | Ready d =>
          Some (MkWorld (with_reg (MkRegistry d) (watcher σ)) (tasks σ) (relay_log σ) false)
      | _ => None
      end
  | LClose =>
      Some (MkWorld (watcher σ) (tasks σ ++ [TClose CIsClosed]) (relay_log σ) false)
  | LNotify pick =>
      match Notify pick (watcher σ) with
      | Ready (_, w) => Some (MkWorld w (tasks σ) (relay_log σ) false)
      | _ => None
      end
  end.

Fixpoint run (ls : list label) (σ : world) : option world :=
  match ls with
  | [] => Some σ
  | l :: ls' =>
      match step l σ with
      | Some σ' => run ls' σ'
      | None => None
      end
  end.

(** The worlds some execution of a watcher reaches. *)
Definition reachable (σ : world) : Prop :=
  exists r options σ0 ls, NewWatcher r options = Some σ0 /\ run ls σ0 = Some σ.

(** ** Sequential readings of the two loops

    What one goroutine observes while it runs, one entry for each trip
    round its [for] loop. *)

(** [watchServiceNode]: [ExistW] fails, or the [select] at 89 takes the
    watch channel or [w.done]. *)
Inductive node_obs :=
| ExistW_fails
| Delivers (zkEvent : zkEvent)
| Done_closed.

(** The value [watchServiceNode] returns; [None] while it is still in the
    loop when the observations end. *)
Fixpoint watchServiceNode (script : list node_obs) : option bool :=
  match script with
  | [] => None
  | ExistW_fails :: _ => Some false
  | Delivers zkEvent :: rest =>
      match node_switch (Type_ zkEvent) with
      | Some b => Some b
      | None => watchServiceNode rest
      end
  | Done_closed :: _ => Some false
  end.

(** The goroutine of 208-216: the events it queues. *)
Definition node_goroutine (service : Service) (script : list node_obs)
  : option (list event) :=
  match watchServiceNode script with
  | Some true => Some [Event (Some (MkEventResult ServiceURLDel service)) None]
  | Some false => Some []
  | None => None
  end.

(** [watchDir]: [GetChildrenW] fails and the [select] at 276 is left by the
    timer, by [w.done] or by the reconnect channel; or it succeeds and the
    [select] at 294 takes the watch channel or [w.reg.done]. *)
Inductive backoff_wake := ByTimer | ByDone | ByReconnect.
Inductive watch_wake := ByZk (zkEvent : zkEvent) | ByRegDone.
Inductive dir_obs :=
| Fails (wake : backoff_wake)
| Watches (children : list string) (wake : watch_wake).

(** A call of a handler with its arguments. *)
Inductive handler_call :=
| Call_handleZkPathEvent (zkRoot : string) (children : list string)
| Call_handleZkNodeEvent (zkPath : string) (children : list string).

(** The [for] loop of [watchDir] (255-320) from a value of [failTimes]:
    the handler calls it makes, in order, and [failTimes] when the
    observations end ([None] once the loop has returned). *)
Fixpoint watchDir_loop (root zkPath : string) (failTimes : Z) (script : list dir_obs)
  : list handler_call * option Z :=
  match script with
  | [] => ([], Some failTimes)
  | Fails wake :: rest =>
      let failTimes := bump failTimes in
      match wake with
      | ByTimer => watchDir_loop root zkPath failTimes rest
      | ByDone => ([], None)
      | ByReconnect =>
          let '(calls, f) := watchDir_loop root zkPath failTimes rest in
          (Call_handleZkNodeEvent zkPath [] :: calls, f)
      end
  | Watches children (ByZk zkEvent) :: rest =>
      match Type_ zkEvent with
      | EventNodeChildrenChanged =>
          if String.eqb zkPath root
          then
            let '(calls, f) := watchDir_loop root zkPath failTimes rest in
            (Call_handleZkPathEvent (Path zkEvent) children :: calls, f)
          else
            let '(failTimes, children) := rearm failTimes children in
            let '(calls, f) := watchDir_loop root zkPath failTimes rest in
            (Call_handleZkNodeEvent (Path zkEvent) children :: calls, f)
      | _ => watchDir_loop root zkPath failTimes rest
      end
  | Watches children ByRegDone :: _ => ([], None)
  end.

End Watcher.

(** ** A concrete set of collaborators, for running the model

    Attributes and services are strings; every path parses and passes the
    filter; a record decodes to its text; [path.Join] of two clean,
    non-empty, slash-free-at-the-seam operands. *)
Definition demo : Collaborators := {|
  ServiceAttr := string;
  Service := string;
  ServiceAttr_zero := ""%string;
  UnmarshalPath := fun _ n => (n, true);
  ServiceAttr_Filter := fun _ _ => true;
  DecodeService := fun b => Some (String.string_of_list_byte b);
  Attr := fun s => s;
  path_Join := fun a b => (a +:+ "/" +:+ b)%string;
  DefaultServiceRoot := "/dubbo"%string;
  REGISTRY_CONN_DELAY := 3;
|}.

(** The world after [ls], from [NewWatcher] on root [/r] with an open registry. *)
Definition demo_start : option (world (H := demo)) :=
  NewWatcher (H := demo) (Some (MkRegistry (make_chan 1)))
    (MkWatchOptions (H := demo) "/r"%string ""%string).

Definition demo_dummy : world (H := demo) :=
  MkWorld (H := demo)
    (MkWatcher (H := demo) (MkWatchOptions (H := demo) ""%string ""%string)
       (MkRegistry (make_chan 1)) (make_chan 0) (make_chan 0) None [] 0)
    [] [] true.

Definition demo_after (ls : list label) : world (H := demo) :=
  match demo_start with
  | Some σ0 => match run (H := demo) ls σ0 with Some σ => σ | None => demo_dummy end
  | None => demo_dummy
  end.

(** Executions of the concrete watcher.  [demo_boot]: the root has one
    service directory [svc]; [watchService] starts a [watchDir] for it and
    one for the root.  [demo_added]: the [watchDir] of [/r/svc] registers,
    sees child [a], is told the children changed and finds the new child
    [b], whose record it queues as added.  [demo_removed]: it then starts
    the goroutine around [watchServiceNode], which sees the node deleted
    and queues the removal.  [demo_stopped]: instead, a caller enters
    [Close] and closes [w.done]. *)
Definition children_changed (p : string) : zkEvent :=
  ZkEvent EventNodeChildrenChanged p.

Definition demo_boot : list label :=
  [LTask 0 Tau; LTask 0 (AnsChildren (Some ["svc"%string])); LTask 0 Tau; LTask 0 Tau].

Definition demo_added : list label :=
  demo_boot ++
  [LTask 1 Tau; LTask 1 Tau; LTask 1 Tau; LTask 1 Tau; LTask 1 Tau;
   LTask 1 (AnsChildren (Some ["a"%string]));
   LTask 1 (WakeZk (children_changed "/r/svc"));
   LTask 1 (AnsChildren (Some ["a"%string; "b"%string]));
   LTask 1 Tau; LTask 1 Tau;
   LTask 1 (AnsGet (Some (String.list_byte_of_string "rec")));
   LTask 1 Tau].

Definition demo_removed : list label :=
  demo_added ++
  [LTask 1 Tau; LTask 3 Tau; LTask 3 (AnsExistW true);
   LTask 3 (WakeZk (ZkEvent EventNodeDeleted "/r/svc/b")); LTask 3 Tau; LTask 3 Tau].

Definition demo_stopped : list label :=
  demo_added ++ [LClose; LTask 3 Tau; LTask 3 Tau].

(** [Close] is called right after [watchService] has started the two
    [watchDir] goroutines, before either has reached [w.wg.Add(1)]. *)
Definition demo_close_early : list label :=
  demo_boot ++ [LClose; LTask 3 Tau; LTask 3 Tau; LTask 3 Tau].

(** What the [watchDir] of [/r/svc] does after that, as in [demo_added]. *)
Definition demo_late_watchDir : list label :=
  [LTask 1 Tau; LTask 1 Tau; LTask 1 Tau; LTask 1 Tau; LTask 1 Tau;
   LTask 1 (AnsChildren (Some ["a"%string]));
   LTask 1 (WakeZk (children_changed "/r/svc"));
   LTask 1 (AnsChildren (Some ["a"%string; "b"%string]));
   LTask 1 Tau; LTask 1 Tau;
   LTask 1 (AnsGet (Some (String.list_byte_of_string "rec")));
   LTask 1 Tau].

(** * Properties *)

Section Properties.
Context `{Collaborators}.

(** ** Executions *)

Lemma run_snoc ls l σ :
  run (ls ++ [l]) σ = match run ls σ with Some σ' => step l σ' | None => None end.
Proof.
  revert σ. induction ls as [|l0 ls IH]; intros σ; simpl.
  - destruct (step l σ); reflexivity.
  - destruct (step l0 σ); [apply IH | reflexivity].
Qed.

Lemma reachable_init r options σ0 : NewWatcher r options = Some σ0 -> reachable σ0.
Proof. intros E. exists r, options, σ0, []. split; [exact E | reflexivity]. Qed.

Lemma reachable_step l σ σ' : reachable σ -> step l σ = Some σ' -> reachable σ'.
Proof.
  intros (r & o & σ0 & ls & E0 & Er) Es.
  exists r, o, σ0, (ls ++ [l]). split; [exact E0|].
  rewrite run_snoc, Er. exact Es.
Qed.

Lemma reachable_run ls σ σ' : reachable σ -> run ls σ = Some σ' -> reachable σ'.
Proof.
  revert σ. induction ls as [|l ls IH]; intros σ Hr E; simpl in E.
  - congruence.
  - destruct (step l σ) as [σ1|] eqn:E1; [|discriminate].
    eapply IH; [eapply reachable_step; eauto | exact E].
Qed.

Lemma reachable_ind (P : world -> Prop) :
  (forall r options σ0, NewWatcher r options = Some σ0 -> P σ0) ->
  (forall l σ σ', reachable σ -> P σ -> step l σ = Some σ' -> P σ') ->
  forall σ, reachable σ -> P σ.
Proof.
  intros Hinit Hstep σ (r & o & σ0 & ls & E0 & Er).
  revert σ Er. induction ls as [|l ls IH] using rev_ind; intros σ Er.
  - simpl in Er. injection Er as <-. eauto.
  - rewrite run_snoc in Er. destruct (run ls σ0) as [σ1|] eqn:E1; [|discriminate].
    eapply Hstep; [| eapply IH; reflexivity | exact Er].
    exists r, o, σ0, ls. auto.
Qed.

(** A property kept by every step is kept by every execution. *)
Lemma run_preserves (P : world -> Prop) :
  (forall l σ σ', P σ -> step l σ = Some σ' -> P σ') ->
  forall ls σ σ', P σ -> run ls σ = Some σ' -> P σ'.
Proof.
  intros Hstep ls. induction ls as [|l ls IH]; intros σ σ' HP E; simpl in E.
  - congruence.
  - destruct (step l σ) as [σ1|] eqn:E1; [|discriminate]. eauto.
Qed.

(** The shape of [NewWatcher]'s result. *)
Lemma NewWatcher_inv r options σ0 :
  NewWatcher r options = Some σ0 ->
  exists reg o,
    σ0 = MkWorld (MkWatcher o reg (make_chan Wactch_Event_Channel_Size) (make_chan 1) None [] 0)
           [TService SStart] [] false.
Proof.
  unfold NewWatcher. destruct r as [reg0|]; [|discriminate].
  intros [= <-]. eauto.
Qed.

(** The cases of one step. *)
Inductive step_spec (σ σ' : world) : label -> Prop :=
| step_task t i tk e :
    tasks σ !! t = Some tk ->
    task_step t tk i (watcher σ) = Ready e ->
    σ' = MkWorld (e_watcher e) (<[t := e_self e]> (tasks σ) ++ e_go e)
           (relay_log σ ++ e_sent e) false ->
    step_spec σ σ' (LTask t i)
| step_panic t i tk :
    tasks σ !! t = Some tk ->
    task_step t tk i (watcher σ) = Panics ->
    σ' = MkWorld (watcher σ) (tasks σ) (relay_log σ) true ->
    step_spec σ σ' (LTask t i)
| step_regclose d :
    chan_close (reg_done (reg (watcher σ))) = Ready d ->
    σ' = MkWorld (with_reg (MkRegistry d) (watcher σ)) (tasks σ) (relay_log σ) false ->
    step_spec σ σ' LRegClose
| step_close :
    σ' = MkWorld (watcher σ) (tasks σ ++ [TClose CIsClosed]) (relay_log σ) false ->
    step_spec σ σ' LClose
| step_notify pick x w :
    Notify pick (watcher σ) = Ready (x, w) ->
    σ' = MkWorld w (tasks σ) (relay_log σ) false ->
    step_spec σ σ' (LNotify pick).

Lemma step_inv l σ σ' : step l σ = Some σ' -> crashed σ = false /\ step_spec σ σ' l.
Proof.
  unfold step. destruct (crashed σ); [discriminate|]. intros E. split; [reflexivity|].
  destruct l as [t i| | |pick].
  - destruct (tasks σ !! t) as [tk|] eqn:Et; [|discriminate].
    destruct (task_step t tk i (watcher σ)) as [e| |] eqn:Ee; [| discriminate |].
    + injection E as <-. eapply step_task; eauto.
    + injection E as <-. eapply step_panic; eauto.
  - destruct (chan_close _) as [d| |] eqn:Ed; try discriminate.
    injection E as <-. eapply step_regclose; eauto.
  - injection E as <-. apply step_close; reflexivity.
  - destruct (Notify pick (watcher σ)) as [[x w]| |] eqn:En; try discriminate.
    injection E as <-. eapply step_notify; eauto.
Qed.

(** Where a goroutine of the pool after a transition comes from: it is the
    one that moved, one that did not, or one just started. *)
Lemma lookup_pool (ts new : list task) (t t' : nat) (tk' tk : task) :
  (<[t := tk']> ts ++ new) !! t' = Some tk ->
  (t' = t /\ tk = tk') \/
  (t' <> t /\ ts !! t' = Some tk) \/
  ((length ts <= t')%nat /\ new !! (t' - length ts)%nat = Some tk).
Proof.
  intros E. apply lookup_app_Some in E as [E|[Hle E]].
  - apply list_lookup_insert_Some in E as [(-> & -> & _)|[Hne E]]; auto.
  - rewrite length_insert in Hle, E. auto.
Qed.

Lemma lookup_pool_self (ts new : list task) (t : nat) (tk0 tk' : task) :
  ts !! t = Some tk0 -> (<[t := tk']> ts ++ new) !! t = Some tk'.
Proof.
  intros E. apply lookup_lt_Some in E as Hlt.
  rewrite lookup_app_l by (rewrite length_insert; exact Hlt).
  apply list_lookup_insert_eq. exact Hlt.
Qed.

Lemma lookup_pool_other (ts new : list task) (t t' : nat) (tk tk' : task) :
  t' <> t -> ts !! t' = Some tk -> (<[t := tk']> ts ++ new) !! t' = Some tk.
Proof.
  intros Hne E. apply lookup_lt_Some in E as Hlt.
  rewrite lookup_app_l by (rewrite length_insert; exact Hlt).
  rewrite list_lookup_insert_ne by congruence. exact E.
Qed.

(** Case analysis of a goroutine transition. *)
Ltac unfold_steps H :=
  unfold task_step, watchService_step, watchDir_step, watchServiceNode_step,
    Close_step, handleZkPathEvent_step, handleZkNodeEvent_step, send_event,
    and_then, goto, go_then, Lock, Unlock, wg_Add, chan_send, chan_close, rearm in H.

Ltac task_cases H :=
  unfold_steps H;
  repeat (case_match; simplify_eq/=; try discriminate);
  simplify_eq/=.

(** [contains] decides membership. *)
Lemma contains_true (s : list string) (e : string) : contains s e = true <-> e ∈ s.
Proof.
  induction s as [|a s IH]; simpl.
  - split; [discriminate | intros Hin; inversion Hin].
  - destruct (String.eqb a e) eqn:Eae.
    + apply String.eqb_eq in Eae as ->. split; [intros _; left | reflexivity].
    + apply String.eqb_neq in Eae. rewrite IH. split.
      * intros Hin. right. exact Hin.
      * intros Hin. inversion Hin; subst; [congruence | assumption].
Qed.

Lemma contains_false (s : list string) (e : string) : contains s e = false <-> e ∉ s.
Proof.
  rewrite <- contains_true. destruct (contains s e); split; congruence.
Qed.

(** ** The relay and the stop channel *)

(** Every event on [w.events] has a result and a nil error, and the channel
    is never closed. *)
Definition event_ok (x : event) : Prop := err x = None /\ is_Some (res x).

Definition relay_ok (w : Watcher) : Prop :=
  closed (events w) = false /\ Forall event_ok (buf (events w)).

(** Nothing is ever sent on [w.done]. *)
Definition done_quiet (w : Watcher) : Prop := buf (done w) = [].

Lemma IsClosed_closed w : done_quiet w -> IsClosed w = closed (done w).
Proof.
  unfold done_quiet, IsClosed, recv_ready, chan_recv. intros ->.
  destruct (closed (done w)); reflexivity.
Qed.

Lemma task_step_facade t tk i w e :
  task_step t tk i w = Ready e ->
  (relay_ok w -> relay_ok (e_watcher e)) /\
  buf (done (e_watcher e)) = buf (done w) /\
  (closed (done w) = true -> closed (done (e_watcher e)) = true) /\
  opts (e_watcher e) = opts w.
Proof.
  intros E. unfold relay_ok.
  task_cases E; (split; [|repeat split; congruence]);
    try tauto;
    intros [Hc Hf]; (split; [assumption|]);
    apply Forall_app; (split; [assumption|]);
    repeat constructor; simpl; eauto.
Qed.

Lemma Notify_facade pick w x w' :
  Notify pick w = Ready (x, w') ->
  (relay_ok w -> relay_ok w') /\
  (done_quiet w -> done w' = done w) /\
  opts w' = opts w.
Proof.
  unfold Notify, chan_recv, relay_ok, done_quiet. intros E.
  destruct pick.
  - destruct (buf (done w)) as [|u rest] eqn:Eb.
    + destruct (closed (done w)) eqn:Ec; [|discriminate].
      simplify_eq/=. naive_solver.
    + simplify_eq/=. naive_solver.
  - destruct (buf (events w)) as [|r rest] eqn:Eb.
    + destruct (closed (events w)) eqn:Ec; [|discriminate].
      simplify_eq/=. split; [intros [? _]; congruence | split; reflexivity].
    + simplify_eq/=. split; [|naive_solver].
      intros [Hc Hf]. split; [assumption|]. inversion Hf; assumption.
Qed.

Definition facade_inv (σ : world) : Prop :=
  relay_ok (watcher σ) /\ done_quiet (watcher σ).

Lemma facade_inv_step l σ σ' : facade_inv σ -> step l σ = Some σ' -> facade_inv σ'.
Proof.
  intros [Hr Hq] E. apply step_inv in E as [_ E]. unfold facade_inv.
  destruct E as [t i tk e Et Ee ->|t i tk Et Ee ->|d Ed ->| ->|pick x w En ->]; simpl.
  - apply task_step_facade in Ee as (H1 & H2 & _). split; [auto|].
    unfold done_quiet in *. congruence.
  - split; assumption.
  - split; assumption.
  - split; assumption.
  - apply Notify_facade in En as (H1 & H2 & _). split; [auto|].
    unfold done_quiet in *. rewrite H2; assumption.
Qed.

Lemma facade_inv_reachable σ : reachable σ -> facade_inv σ.
Proof.
  apply reachable_ind.
  - intros r o σ0 E. apply NewWatcher_inv in E as (reg0 & o' & ->).
    repeat split; simpl; constructor.
  - intros l σ1 σ2 _. apply facade_inv_step.
Qed.

(** Once closed, [w.done] stays closed. *)
Lemma done_closed_step l σ σ' :
  facade_inv σ -> step l σ = Some σ' ->
  IsClosed (watcher σ) = true -> IsClosed (watcher σ') = true.
Proof.
  intros Hinv E. pose proof (facade_inv_step _ _ _ Hinv E) as [_ Hq'].
  destruct Hinv as [_ Hq].
  rewrite !IsClosed_closed by assumption.
  apply step_inv in E as [_ E].
  destruct E as [t i tk e Et Ee ->|t i tk Et Ee ->|d Ed ->| ->|pick x w En ->]; simpl; auto.
  - apply task_step_facade in Ee as (_ & _ & H3 & _). exact H3.
  - apply Notify_facade in En as (_ & H2 & _). rewrite H2; auto.
Qed.

Lemma done_closed_run ls σ σ' :
  facade_inv σ -> run ls σ = Some σ' ->
  IsClosed (watcher σ) = true -> IsClosed (watcher σ') = true.
Proof.
  intros Hinv E Hc.
  enough (facade_inv σ' /\ IsClosed (watcher σ') = true) by tauto.
  revert E. apply (run_preserves (fun σ => facade_inv σ /\ IsClosed (watcher σ) = true)); [|auto].
  intros l σ1 σ2 [Hi Hc1] E. split; [eapply facade_inv_step | eapply done_closed_step]; eauto.
Qed.

(** Goroutines are started at the head of [watchDir] or of the goroutine
    around [watchServiceNode]. *)
Definition fresh (tk : task) : Prop :=
  (exists zkPath, tk = TDir zkPath DLock) \/
  (exists node service, tk = TNode node service NWgAdd).

Lemma spawned_fresh t tk i w e :
  task_step t tk i w = Ready e -> Forall fresh (e_go e).
Proof.
  intros E. task_cases E.
  all: repeat match goal with |- Forall _ _ => constructor end.
  all: unfold fresh; eauto.
Qed.

(** The queue after a transition is the queue before it followed by the
    events the transition logged, each with a nil error. *)
Lemma task_step_sends t tk i w e :
  task_step t tk i w = Ready e ->
  buf (events (e_watcher e)) =
    buf (events w) ++ map (fun x => Event (Some (snd x)) None) (e_sent e).
Proof.
  intros E. task_cases E.
  all: try (symmetry; apply app_nil_r).
  all: reflexivity.
Qed.

(** A call of [Close] that is past [close(w.done)] (or found it closed). *)
Definition closing (tk : task) : Prop := tk = TClose CWait \/ tk = TClose CReturned.

Lemma task_step_closing t tk i w e :
  task_step t tk i w = Ready e ->
  (closing tk -> IsClosed w = true) ->
  closing (e_self e) -> IsClosed (e_watcher e) = true.
Proof.
  unfold closing. intros E Hc Hs.
  task_cases E.
  all: destruct Hs as [Hs|Hs]; try discriminate; auto.
  - destruct (IsClosed w); [reflexivity | discriminate].
  - unfold IsClosed, recv_ready, chan_recv. simpl.
    destruct (buf (done w)); reflexivity.
Qed.

Definition close_inv (σ : world) : Prop :=
  forall t tk, tasks σ !! t = Some tk -> closing tk -> IsClosed (watcher σ) = true.

Lemma close_inv_step l σ σ' :
  facade_inv σ -> close_inv σ -> step l σ = Some σ' -> close_inv σ'.
Proof.
  intros Hf Hc E. pose proof (done_closed_step _ _ _ Hf E) as Hstable.
  apply step_inv in E as [_ E].
  destruct E as [t i tk e Et Ee ->|t i tk Et Ee ->|d Ed ->| ->|pick x w En ->];
    intros t' tk' Ht' Hcl; cbn [tasks watcher] in Ht', Hstable |- *; eauto.
  - apply lookup_pool in Ht' as [[-> ->]|[[Hne Ht']|[_ Ht']]].
    + eapply task_step_closing; eauto.
    + eauto.
    + apply spawned_fresh in Ee. rewrite Forall_forall in Ee.
      apply list_elem_of_lookup_2, Ee in Ht'. unfold closing in Hcl.
      destruct Hcl as [-> | ->], Ht' as [[? ?]|(? & ? & ?)]; discriminate.
  - apply lookup_app_Some in Ht' as [Ht'|[_ Ht']]; [eauto|].
    destruct (t' - length (tasks σ))%nat; simpl in Ht'; [|discriminate].
    injection Ht' as <-. destruct Hcl; discriminate.
Qed.

Lemma close_inv_reachable σ : reachable σ -> close_inv σ.
Proof.
  intros Hr. enough (facade_inv σ /\ close_inv σ) by tauto.
  revert σ Hr. apply reachable_ind.
  - intros r o σ0 E. split; [apply facade_inv_reachable; eapply reachable_init; eauto|].
    apply NewWatcher_inv in E as (reg0 & o' & ->).
    intros [|t] tk Ht Hcl; simpl in Ht; [|discriminate].
    injection Ht as <-. destruct Hcl; discriminate.
  - intros l σ1 σ2 _ [Hf Hc] E. split; [eapply facade_inv_step | eapply close_inv_step]; eauto.
Qed.

(** ** [Notify] *)

Lemma Notify_CaseDone w :
  done_quiet w ->
  Notify CaseDone w =
    if IsClosed w then Ready ((None, Some watcher_stopped), w) else Blocks.
Proof.
  intros Hq. rewrite (IsClosed_closed w Hq). unfold done_quiet in Hq.
  unfold Notify, chan_recv. rewrite Hq.
  destruct (closed (done w)) eqn:Ec; [|reflexivity].
  destruct w as [o r ev [b c cl] m ps n]. simpl in *. subst. reflexivity.
Qed.

Lemma Notify_CaseEvents w :
  relay_ok w ->
  match buf (events w) with
  | [] => Notify CaseEvents w = Blocks
  | x :: rest =>
      exists r, res x = Some r /\
        Notify CaseEvents w =
          Ready ((Some r, None), with_events (Chan rest (cap (events w)) false) w)
  end.
Proof.
  intros [Hc Hf]. unfold Notify, chan_recv.
  destruct (buf (events w)) as [|x rest] eqn:Eb.
  - rewrite Hc. reflexivity.
  - inversion Hf as [|x' l' [He [r Hr]] Hrest]; subst.
    exists r. split; [exact Hr|]. rewrite Hr, He, Hc. reflexivity.
Qed.

(** C10: every event a goroutine queues on [w.events] is a result with a
    nil error, so every event waiting on the relay has a nil error, and
    whatever [Notify] returns in a reachable state is either the
    [watcher stopped] error without a result, or a result with a nil error:
    no other error is returned, and never a result together with an error. *)
Theorem Notify_error_is_watcher_stopped σ :
  reachable σ ->
  (forall t tk i e,
     tasks σ !! t = Some tk -> task_step t tk i (watcher σ) = Ready e ->
     buf (events (e_watcher e)) =
       buf (events (watcher σ)) ++ map (fun x => Event (Some (snd x)) None) (e_sent e)) /\
  Forall (fun x => err x = None /\ is_Some (res x)) (buf (events (watcher σ))) /\
  (forall pick x w',
     Notify pick (watcher σ) = Ready (x, w') ->
     x = (None, Some watcher_stopped) \/ exists r, x = (Some r, None)).
Proof.
  intros Hr. apply facade_inv_reachable in Hr as [Hok Hq].
  split; [|split].
  - intros t tk i e _ E. eapply task_step_sends; eauto.
  - destruct Hok as [_ Hf]. exact Hf.
  - intros [|] x w' E.
    + rewrite (Notify_CaseDone _ Hq) in E.
      destruct (IsClosed (watcher σ)); [|discriminate].
      injection E as <- <-. left; reflexivity.
    + pose proof (Notify_CaseEvents _ Hok) as HN.
      destruct (buf (events (watcher σ))) as [|y rest].
      * congruence.
      * destruct HN as (r & _ & HN). rewrite HN in E. injection E as <- <-.
        right. exists r. reflexivity.
Qed.

(** C4, amended: in a reachable state [Notify] blocks exactly when the
    watcher is not stopped and no event waits on the relay.  The [w.done]
    case can be taken exactly when the watcher is stopped, and returns the
    [watcher stopped] error.  The [w.events] case can be taken whenever an
    event waits, stopped or not, and returns that event.  So a stopped
    watcher returns only the [watcher stopped] error once the relay is
    empty, but may return the events still waiting before that. *)
Theorem Notify_blocks_and_returns σ :
  reachable σ ->
  ((forall pick, Notify pick (watcher σ) = Blocks) <->
     IsClosed (watcher σ) = false /\ buf (events (watcher σ)) = []) /\
  (forall x w', Notify CaseDone (watcher σ) = Ready (x, w') ->
     IsClosed (watcher σ) = true /\ x = (None, Some watcher_stopped)) /\
  (IsClosed (watcher σ) = true ->
     Notify CaseDone (watcher σ) = Ready ((None, Some watcher_stopped), watcher σ)) /\
  (forall y rest, buf (events (watcher σ)) = y :: rest ->
     exists r w', res y = Some r /\
       Notify CaseEvents (watcher σ) = Ready ((Some r, None), w')) /\
  (IsClosed (watcher σ) = true -> buf (events (watcher σ)) = [] ->
     forall pick x w', Notify pick (watcher σ) = Ready (x, w') ->
       x = (None, Some watcher_stopped)).
Proof.
  intros Hr. apply facade_inv_reachable in Hr as [Hok Hq].
  pose proof (Notify_CaseDone _ Hq) as HD.
  pose proof (Notify_CaseEvents _ Hok) as HE.
  split; [split|split; [|split; [|split]]].
  - intros Hb. split.
    + specialize (Hb CaseDone). rewrite HD in Hb.
      destruct (IsClosed (watcher σ)); [discriminate | reflexivity].
    + specialize (Hb CaseEvents).
      destruct (buf (events (watcher σ))) as [|y rest]; [reflexivity|].
      destruct HE as (r & _ & HE). congruence.
  - intros [Hc Hb] [|].
    + rewrite HD, Hc. reflexivity.
    + rewrite Hb in HE. exact HE.
  - intros x w' E. rewrite HD in E.
    destruct (IsClosed (watcher σ)); [|discriminate].
    injection E as <- _. split; reflexivity.
  - intros Hc. rewrite HD, Hc. reflexivity.
  - intros y rest Hb. rewrite Hb in HE. destruct HE as (r & Hres & HE). eauto.
  - intros Hc Hb [|] x w' E.
    + rewrite HD, Hc in E. injection E as <- _. reflexivity.
    + rewrite Hb in HE. congruence.
Qed.

(** C8, amended: [Valid] answers true exactly when the watcher is not
    stopped, the registry's own [done] channel is not closed, and the
    session state is connected or has-session.  Once a call of [Close] is
    past closing [w.done], [Valid] answers false, whatever the session
    state, in that state and in every state reached from it. *)
Theorem Valid_iff_and_false_after_Close σ :
  reachable σ ->
  (forall zkState,
     Valid zkState (watcher σ) = true <->
     IsClosed (watcher σ) = false /\
     closed (reg_done (reg (watcher σ))) = false /\
     buf (reg_done (reg (watcher σ))) = [] /\
     (zkState = StateConnected \/ zkState = StateHasSession)) /\
  (forall t tk, tasks σ !! t = Some tk -> closing tk ->
     forall ls σ' zkState, run ls σ = Some σ' -> Valid zkState (watcher σ') = false).
Proof.
  intros Hr. split.
  - intros zkState. unfold Valid. unfold recv_ready, chan_recv.
    destruct (IsClosed (watcher σ)).
    { split; [discriminate | intros [? _]; discriminate]. }
    destruct (buf (reg_done (reg (watcher σ)))) as [|u rest].
    2:{ split; [discriminate | intros (_ & _ & ? & _); discriminate]. }
    destruct (closed (reg_done (reg (watcher σ)))).
    { split; [discriminate | intros (_ & ? & _); discriminate]. }
    destruct zkState; split; try discriminate;
      try (intros (_ & _ & _ & [?|?]); discriminate); auto 6.
  - intros t tk Ht Hcl ls σ' zkState E.
    pose proof (close_inv_reachable _ Hr _ _ Ht Hcl) as Hc.
    pose proof (done_closed_run _ _ _ (facade_inv_reachable _ Hr) E Hc) as Hc'.
    unfold Valid. rewrite Hc'. reflexivity.
Qed.

(** ** [watchServiceNode] *)

(** An observation after which [watchServiceNode] goes round its loop again. *)
Definition rearms (o : node_obs) : Prop :=
  exists zkEvent, o = Delivers zkEvent /\ Type_ zkEvent <> EventNodeDeleted.

Lemma node_switch_deleted ty :
  (ty = EventNodeDeleted -> node_switch ty = Some true) /\
  (ty <> EventNodeDeleted -> node_switch ty = None).
Proof. destruct ty; split; intros Hty; try reflexivity; congruence. Qed.

Lemma watchServiceNode_rearms pre rest :
  Forall rearms pre -> watchServiceNode (pre ++ rest) = watchServiceNode rest.
Proof.
  induction 1 as [|o pre (e & -> & Hty) _ IH]; simpl; [reflexivity|].
  rewrite (proj2 (node_switch_deleted _) Hty). exact IH.
Qed.

Lemma watchServiceNode_Some script b :
  watchServiceNode script = Some b ->
  exists pre o rest, script = pre ++ o :: rest /\ Forall rearms pre /\
    match o with
    | Delivers zkEvent => Type_ zkEvent = EventNodeDeleted /\ b = true
    | _ => b = false
    end.
Proof.
  induction script as [|o script IH]; simpl; [discriminate|].
  destruct o as [|e|].
  - intros [= <-]. exists [], ExistW_fails, script. auto.
  - destruct (Type_ e) eqn:Ety; simpl.
    2:{ intros [= <-]. exists [], (Delivers e), script. auto. }
    all: intros E; destruct (IH E) as (pre & o & rest & -> & Hpre & Ho).
    all: exists (Delivers e :: pre), o, rest.
    all: split; [reflexivity|]; split; [|exact Ho].
    all: constructor; [|exact Hpre]; exists e; split; [reflexivity|congruence].
  - intros [= <-]. exists [], Done_closed, script. auto.
Qed.

(** C5, amended: [watchServiceNode] returns true exactly when a
    node-deleted notification is the first observation that ends its loop,
    and false exactly when that observation is a failed [ExistW] or the
    closed [w.done].  Every other notification, the watch-invalidated one
    ([EventNotWatching]) included, makes it go round the loop again.  The
    goroutine around it queues the removal of the instance's record exactly
    when it returns true, and nothing when it returns false. *)
Theorem watchServiceNode_true_iff_deleted service script :
  (watchServiceNode script = Some true <->
     exists pre zkEvent rest,
       script = pre ++ Delivers zkEvent :: rest /\ Forall rearms pre /\
       Type_ zkEvent = EventNodeDeleted) /\
  (watchServiceNode script = Some false <->
     exists pre o rest,
       script = pre ++ o :: rest /\ Forall rearms pre /\
       (o = ExistW_fails \/ o = Done_closed)) /\
  (forall zkEvent rest,
     Type_ zkEvent <> EventNodeDeleted ->
     watchServiceNode (Delivers zkEvent :: rest) = watchServiceNode rest) /\
  (node_goroutine service script =
     Some [Event (Some (MkEventResult ServiceURLDel service)) None] <->
   watchServiceNode script = Some true) /\
  (node_goroutine service script = Some [] <-> watchServiceNode script = Some false).
Proof.
  split; [|split; [|split; [|split]]].
  - split.
    + intros E. apply watchServiceNode_Some in E as (pre & o & rest & -> & Hpre & Ho).
      destruct o as [|e|]; try discriminate. destruct Ho as [Hty _]. eauto 6.
    + intros (pre & e & rest & -> & Hpre & Hty).
      rewrite (watchServiceNode_rearms _ _ Hpre). simpl.
      rewrite (proj1 (node_switch_deleted _) Hty). reflexivity.
  - split.
    + intros E. apply watchServiceNode_Some in E as (pre & o & rest & -> & Hpre & Ho).
      destruct o as [|e|]; [eauto 7 | destruct Ho; discriminate | eauto 7].
    + intros (pre & o & rest & -> & Hpre & [-> | ->]);
        rewrite (watchServiceNode_rearms _ _ Hpre); reflexivity.
  - intros e rest Hty. simpl. rewrite (proj2 (node_switch_deleted _) Hty). reflexivity.
  - unfold node_goroutine. destruct (watchServiceNode script) as [[|]|]; split; congruence.
  - unfold node_goroutine. destruct (watchServiceNode script) as [[|]|]; split; congruence.
Qed.

(** ** [watchService] *)

Lemma watchService_step_quiet pc i w e :
  watchService_step pc i w = Ready e -> e_sent e = [] /\ e_watcher e = w.
Proof.
  unfold watchService_step, goto, go_then. intros E.
  repeat (case_match; simplify_eq/=; try discriminate); auto.
Qed.

(** C7: when the lookup of the root's children fails at startup,
    [watchService] goes on with no children: it queues nothing on the relay
    (no transition of [watchService] ever does), starts no [watchDir] for a
    service directory, and starts the [watchDir] of the root. *)
Theorem watchService_lookup_failure_is_silent r options σ0 :
  NewWatcher r options = Some σ0 ->
  String.length (Root (opts (watcher σ0))) <> 0%nat ->
  (forall pc i w e,
     watchService_step pc i w = Ready e -> e_sent e = [] /\ events (e_watcher e) = events w) /\
  (forall w, watchService_step SGetChildren (AnsChildren None) w =
     Ready (MkEffect w (TService (SRange ServiceAttr_zero [])) [] [])) /\
  run [LTask 0 Tau; LTask 0 (AnsChildren None); LTask 0 Tau] σ0 =
    Some (MkWorld (watcher σ0) [TExit; TDir (Root (opts (watcher σ0))) DLock] [] false) /\
  buf (events (watcher σ0)) = [].
Proof.
  intros E Hroot. split; [|split; [reflexivity|]].
  - intros pc i w e Ee. apply watchService_step_quiet in Ee as [-> ->]. auto.
  - apply NewWatcher_inv in E as (reg0 & o & ->). simpl in *.
    unfold step; simpl. unfold watchService_step; simpl.
    destruct (String.length (Root o)) eqn:El; [congruence|]. simpl.
    split; reflexivity.
Qed.

(** ** The failure counter of [watchDir] *)

Lemma bump_min failTimes : bump failTimes = Z.min (failTimes + 1) MAX_TIMES.
Proof.
  unfold bump, MAX_TIMES. destruct (15 <=? failTimes + 1) eqn:E; lia.
Qed.

Lemma watchDir_loop_reconnect root zkPath failTimes rest :
  watchDir_loop root zkPath failTimes (Fails ByReconnect :: rest) =
    (Call_handleZkNodeEvent zkPath [] ::
       fst (watchDir_loop root zkPath (bump failTimes) rest),
     snd (watchDir_loop root zkPath (bump failTimes) rest)).
Proof.
  simpl. destruct (watchDir_loop root zkPath (bump failTimes) rest). reflexivity.
Qed.

(** C9, amended: a failed children-watch call adds one to the failure
    counter, up to [MAX_TIMES], so the delay before the next try is at most
    [MAX_TIMES] times the delay unit.  On a reconnect signal the loop calls
    [handleZkNodeEvent] with no known children at once, without waiting
    out the delay, and then tries the children watch again; the failure
    counter is left as the failed call set it, between 1 and [MAX_TIMES],
    and is not set to zero. *)
Theorem failTimes_capped_and_kept_on_reconnect root zkPath failTimes :
  0 <= REGISTRY_CONN_DELAY ->
  0 <= failTimes ->
  bump failTimes = Z.min (failTimes + 1) MAX_TIMES /\
  backoff_seconds (bump failTimes) <= MAX_TIMES * REGISTRY_CONN_DELAY /\
  (forall t w,
     watchDir_step t zkPath (DGetChildrenW failTimes) (AnsChildren None) w =
       Ready (MkEffect w (TDir zkPath (DBackoff (bump failTimes))) [] [])) /\
  (forall t w f,
     watchDir_step t zkPath (DBackoff f) WakeReconnect w =
       Ready (MkEffect w (TDir zkPath (DNode f zkPath [] HGetChildren)) [] [])) /\
  (forall t w f zkPath' children,
     task_step t (TDir zkPath (DNode f zkPath' children (HRange []))) Tau w =
       Ready (MkEffect w (TDir zkPath (DGetChildrenW f)) [] [])) /\
  (forall rest,
     watchDir_loop root zkPath failTimes (Fails ByReconnect :: rest) =
       (Call_handleZkNodeEvent zkPath [] ::
          fst (watchDir_loop root zkPath (bump failTimes) rest),
        snd (watchDir_loop root zkPath (bump failTimes) rest))) /\
  1 <= bump failTimes <= MAX_TIMES.
Proof.
  intros Hd Hf.
  split; [apply bump_min|].
  split; [rewrite bump_min; unfold backoff_seconds, MAX_TIMES; nia|].
  split; [reflexivity|]. split; [reflexivity|]. split; [reflexivity|].
  split; [apply watchDir_loop_reconnect|].
  rewrite bump_min. unfold MAX_TIMES. lia.
Qed.

(** C2: in a [watchDir] that is not the root's, after a failed
    children-watch call the first children-changed notification hands the
    known children to [handleZkNodeEvent] unchanged; the notification after
    it, with no failure in between, hands on the empty list.  The known
    children are emptied exactly when the failure counter is zero, which is
    after a notification and never after a failure. *)
Theorem known_children_emptied_when_no_failure root zkPath failTimes p1 p2 c1 c2 :
  String.eqb zkPath root = false ->
  0 <= failTimes ->
  fst (watchDir_loop root zkPath failTimes
         [Fails ByTimer;
          Watches c1 (ByZk (ZkEvent EventNodeChildrenChanged p1));
          Watches c2 (ByZk (ZkEvent EventNodeChildrenChanged p2))]) =
    [Call_handleZkNodeEvent p1 c1; Call_handleZkNodeEvent p2 []] /\
  (forall f children,
     snd (rearm f children) = [] <-> f = 0 \/ children = []).
Proof.
  intros Hne Hf. split.
  - simpl. rewrite Hne. unfold rearm.
    destruct (bump failTimes =? 0) eqn:E.
    + rewrite bump_min in E. unfold MAX_TIMES in E. lia.
    + reflexivity.
  - intros f children. unfold rearm. simpl.
    destruct (f =? 0) eqn:E.
    + split; [intros _; left; lia | reflexivity].
    + split; [auto | intros [?|?]; [lia | assumption]].
Qed.

(** ** Order of the events of one instance *)

(** The instance a goroutine has queued as added and may yet queue as
    removed: the goroutine around [watchServiceNode], and [handleZkNodeEvent]
    between its send at 206 and the [go] at 208. *)
Definition owes (tk : task) : option (string * Service) :=
  match tk with
  | TNode node service _ => Some (node, service)
  | TDir _ (DNode _ _ _ (HSpawn node service _)) => Some (node, service)
  | _ => None
  end.

Definition added (x : string * Service) : string * EventResult :=
  (fst x, MkEventResult ServiceURLAdd (snd x)).

Definition removed (x : string * Service) : string * EventResult :=
  (fst x, MkEventResult ServiceURLDel (snd x)).

Lemma task_step_owes t tk i w e :
  task_step t tk i w = Ready e ->
  (forall x, owes (e_self e) = Some x -> owes tk = Some x \/ e_sent e = [added x]) /\
  Forall (fun tk' => forall x, owes tk' = Some x -> owes tk = Some x) (e_go e) /\
  Forall (fun y => (exists x, y = added x) \/ (exists x, owes tk = Some x /\ y = removed x))
    (e_sent e).
Proof.
  intros E. task_cases E.
  all: split; [|split].
  all: repeat match goal with |- Forall _ _ => constructor end.
  all: try (intros x Hx; simpl in Hx; simplify_eq; auto; fail).
  all: try (left; eexists (_, _); reflexivity).
  all: try (right; eexists (_, _); split; reflexivity).
Qed.

Definition order_inv (σ : world) : Prop :=
  (forall t tk x, tasks σ !! t = Some tk -> owes tk = Some x -> added x ∈ relay_log σ) /\
  (forall j x, relay_log σ !! j = Some (removed x) ->
     exists i, (i < j)%nat /\ relay_log σ !! i = Some (added x)).

Lemma order_inv_step l σ σ' : order_inv σ -> step l σ = Some σ' -> order_inv σ'.
Proof.
  intros [Ho Hl] E. apply step_inv in E as [_ E].
  destruct E as [t i tk e Et Ee ->|t i tk Et Ee ->|d Ed ->| ->|pick x w En ->];
    [| split; assumption | split; assumption | | split; assumption].
  - apply task_step_owes in Ee as (Hself & Hgo & Hsent).
    rewrite Forall_forall in Hgo. rewrite Forall_forall in Hsent.
    split; cbn [tasks relay_log].
    + intros t' tk' x Ht' Hx. apply elem_of_app.
      apply lookup_pool in Ht' as [[-> ->]|[[Hne Ht']|[_ Ht']]].
      * destruct (Hself x Hx) as [Hx'|Hs]; [left; eauto|].
        right. rewrite Hs. apply list_elem_of_singleton. reflexivity.
      * left; eauto.
      * apply list_elem_of_lookup_2 in Ht'. left. eapply Ho; [exact Et|]. eauto.
    + intros j x Hj. apply lookup_app_Some in Hj as [Hj|[Hle Hj]].
      * destruct (Hl j x Hj) as (k & Hk & Hlk). exists k. split; [exact Hk|].
        apply lookup_app_l_Some. exact Hlk.
      * apply list_elem_of_lookup_2 in Hj.
        destruct (Hsent _ Hj) as [[y Hy]|(y & Hy & Hr)].
        -- destruct x, y. discriminate.
        -- assert (y = x) as -> by (destruct x, y; unfold removed in Hr; simpl in Hr; congruence).
           pose proof (Ho _ _ _ Et Hy) as Hin.
           apply list_elem_of_lookup_1 in Hin as (k & Hk).
           exists k. split; [apply lookup_lt_Some in Hk; lia|].
           apply lookup_app_l_Some. exact Hk.
  - split; cbn [tasks relay_log]; [|exact Hl].
    intros t' tk' x Ht' Hx. apply lookup_app_Some in Ht' as [Ht'|[_ Ht']]; [eauto|].
    apply list_elem_of_lookup_2, list_elem_of_singleton in Ht'. subst. discriminate.
Qed.

Lemma order_inv_reachable σ : reachable σ -> order_inv σ.
Proof.
  apply reachable_ind.
  - intros r o σ0 E. apply NewWatcher_inv in E as (reg0 & o' & ->). split; simpl.
    + intros [|t] tk x Ht Hx; simpl in Ht; [|discriminate]. injection Ht as <-. discriminate.
    + intros j x Hj. destruct j; discriminate.
  - intros l σ1 σ2 _. apply order_inv_step.
Qed.

(** C3: in every execution, wherever the removal of an instance's record
    stands among the events queued on the relay, the addition of the same
    record for the same instance path stands before it; and a goroutine
    around [watchServiceNode] is in the pool only when the addition of its
    instance is queued already. *)
Theorem Added_is_queued_before_Removed σ :
  reachable σ ->
  (forall j node service,
     relay_log σ !! j = Some (node, MkEventResult ServiceURLDel service) ->
     exists i, (i < j)%nat /\
       relay_log σ !! i = Some (node, MkEventResult ServiceURLAdd service)) /\
  (forall t node service pc,
     tasks σ !! t = Some (TNode node service pc) ->
     (node, MkEventResult ServiceURLAdd service) ∈ relay_log σ).
Proof.
  intros Hr. apply order_inv_reachable in Hr as [Ho Hl]. split.
  - intros j node service Hj. apply (Hl j (node, service)). exact Hj.
  - intros t node service pc Ht. apply (Ho t _ (node, service) Ht). reflexivity.
Qed.

(** ** One [watchDir] for each path *)

(** Between [w.Lock()] and [w.Unlock()]. *)
Definition critical (tk : task) : bool :=
  match tk with
  | TDir _ DCheck | TDir _ (DAppend _) | TDir _ (DUnlock _) | TDir _ DDeferUnlock => true
  | _ => false
  end.

(** The path a [watchDir] has put into [w.pathSet] (236), until it returns. *)
Definition watching (tk : task) : option string :=
  match tk with
  | TDir _ DLock | TDir _ DCheck | TDir _ (DAppend _) | TDir _ (DUnlock true) => None
  | TDir zkPath _ => Some zkPath
  | _ => None
  end.

Lemma spawned_idle t tk i w e :
  task_step t tk i w = Ready e ->
  Forall (fun tk' => critical tk' = false /\ watching tk' = None /\
                     forall p flag, tk' <> TDir p (DAppend flag)) (e_go e).
Proof.
  intros E. apply spawned_fresh in E. eapply Forall_impl; [exact E|].
  intros tk' [[p ->]|(n & s & ->)]; repeat split; discriminate.
Qed.

Lemma task_step_mutex t tk i w e :
  task_step t tk i w = Ready e ->
  (mutex (e_watcher e) = mutex w /\ (critical (e_self e) = true -> critical tk = true)) \/
  (mutex w = None /\ mutex (e_watcher e) = Some t) \/
  (critical tk = true /\ mutex (e_watcher e) = None /\ critical (e_self e) = false).
Proof.
  intros E. task_cases E.
  all: first
    [ left; split; [reflexivity | simpl; congruence]
    | right; left; split; [first [assumption | reflexivity] | reflexivity]
    | right; right; split; [reflexivity | split; reflexivity] ].
Qed.

Lemma task_step_pathSet t tk i w e :
  task_step t tk i w = Ready e ->
  (forall p flag, e_self e = TDir p (DAppend flag) ->
     flag = contains (pathSet w) p /\ pathSet (e_watcher e) = pathSet w) /\
  ((pathSet (e_watcher e) = pathSet w /\
    forall p, watching (e_self e) = Some p -> watching tk = Some p) \/
   (exists p, tk = TDir p (DAppend false) /\ watching (e_self e) = Some p /\
      pathSet (e_watcher e) = pathSet w ++ [p])).
Proof.
  intros E. task_cases E.
  all: split; [intros p' flag' Hp'; simplify_eq; auto|].
  all: first
    [ left; split; [reflexivity | intros p'; simpl; congruence]
    | right; eexists; split; [reflexivity | split; reflexivity] ].
Qed.

Lemma Notify_keeps pick w x w' :
  Notify pick w = Ready (x, w') ->
  mutex w' = mutex w /\ pathSet w' = pathSet w /\ wg w' = wg w /\ reg w' = reg w.
Proof.
  unfold Notify. intros E.
  destruct pick; repeat (case_match; simplify_eq/=; try discriminate); auto.
Qed.

Definition dir_inv (σ : world) : Prop :=
  (forall t tk, tasks σ !! t = Some tk -> critical tk = true ->
     mutex (watcher σ) = Some t) /\
  (forall t p flag, tasks σ !! t = Some (TDir p (DAppend flag)) ->
     flag = contains (pathSet (watcher σ)) p) /\
  (forall t tk p, tasks σ !! t = Some tk -> watching tk = Some p ->
     p ∈ pathSet (watcher σ)) /\
  (forall t1 t2 tk1 tk2 p,
     tasks σ !! t1 = Some tk1 -> tasks σ !! t2 = Some tk2 ->
     watching tk1 = Some p -> watching tk2 = Some p -> t1 = t2).

Lemma dir_inv_keep (σ : world) (w' : Watcher) (ts' : list task) (lg : list (string * EventResult)) (b : bool) :
  dir_inv σ ->
  mutex w' = mutex (watcher σ) -> pathSet w' = pathSet (watcher σ) ->
  (forall t tk, ts' !! t = Some tk ->
     tasks σ !! t = Some tk \/ tk = TClose CIsClosed) ->
  dir_inv (MkWorld w' ts' lg b).
Proof.
  intros (M1 & M2 & M3 & M4) Hm Hp Hts.
  assert (forall t tk, ts' !! t = Some tk -> critical tk = true \/ is_Some (watching tk) ->
            tasks σ !! t = Some tk) as Hts'.
  { intros t tk Ht Hc. destruct (Hts t tk Ht) as [?| ->]; [assumption|].
    destruct Hc as [Hc|[? Hc]]; discriminate. }
  repeat split; cbn [tasks watcher]; rewrite ?Hm, ?Hp.
  - intros t tk Ht Hc. eauto.
  - intros t p flag Ht. apply (M2 t). apply Hts'; auto.
  - intros t tk p Ht Hw. apply (M3 t tk); [|assumption]. apply Hts'; eauto.
  - intros t1 t2 tk1 tk2 p H1 H2 Hw1 Hw2.
    apply (M4 t1 t2 tk1 tk2 p); try assumption; apply Hts'; eauto.
Qed.

Lemma dir_inv_step l σ σ' : dir_inv σ -> step l σ = Some σ' -> dir_inv σ'.
Proof.
  intros Hinv E. apply step_inv in E as [_ E].
  destruct E as [t i tk e Et Ee ->|t i tk Et Ee ->|d Ed ->| ->|pick x w En ->].
  - destruct Hinv as (M1 & M2 & M3 & M4).
    pose proof (spawned_idle _ _ _ _ _ Ee) as Hgo. rewrite Forall_forall in Hgo.
    pose proof (task_step_mutex _ _ _ _ _ Ee) as Hmu.
    pose proof (task_step_pathSet _ _ _ _ _ Ee) as [HA HB].
    assert (forall t' tk', (<[t:=e_self e]> (tasks σ) ++ e_go e) !! t' = Some tk' ->
              (t' = t /\ tk' = e_self e) \/ (t' <> t /\ tasks σ !! t' = Some tk') \/
              (critical tk' = false /\ watching tk' = None /\
               forall p flag, tk' <> TDir p (DAppend flag))) as Hpool.
    { intros t' tk' Ht'. apply lookup_pool in Ht' as [?|[?|[_ Ht']]]; auto.
      right; right. apply Hgo. eapply list_elem_of_lookup_2; eauto. }
    assert (forall p, p ∈ pathSet (watcher σ) -> p ∈ pathSet (e_watcher e)) as Hgrow.
    { intros p Hp. destruct HB as [[-> _]|(q & _ & _ & ->)]; [assumption|].
      apply elem_of_app; auto. }
    clear Ee Hgo.
    split; [|split; [|split]]; cbn [tasks watcher].
    + intros t' tk' Ht' Hc.
      destruct (Hpool _ _ Ht') as [[-> ->]|[[Hne Ht0]|(Hc' & _)]]; [| |congruence].
      * destruct Hmu as [[Hm Himp]|[[_ Hm]|(_ & _ & Hc')]]; [|assumption|congruence].
        rewrite Hm. eauto.
      * pose proof (M1 _ _ Ht0 Hc) as Hm0.
        destruct Hmu as [[Hm _]|[[Hn _]|(Hct & _)]]; [congruence|congruence|].
        pose proof (M1 _ _ Et Hct). congruence.
    + intros t' p flag Ht'.
      destruct (Hpool _ _ Ht') as [[-> Hs]|[[Hne Ht0]|(_ & _ & Hn)]].
      * symmetry in Hs. destruct (HA _ _ Hs) as [-> ->]. reflexivity.
      * rewrite (M2 _ _ _ Ht0).
        destruct HB as [[-> _]|(q & Htk & _ & _)]; [reflexivity|].
        exfalso. apply Hne.
        assert (mutex (watcher σ) = Some t') by (eapply M1; [exact Ht0|reflexivity]).
        assert (mutex (watcher σ) = Some t) by (eapply M1; [exact Et|subst tk; reflexivity]).
        congruence.
      * exfalso. eapply Hn; reflexivity.
    + intros t' tk' p Ht' Hw.
      destruct (Hpool _ _ Ht') as [[-> ->]|[[Hne Ht0]|(_ & Hn & _)]]; [| |congruence].
      * destruct HB as [[-> Himp]|(q & _ & Hq & ->)]; [eauto|].
        apply elem_of_app. right. apply list_elem_of_singleton. congruence.
      * apply Hgrow. eauto.
    + assert (forall t2 tk2 p, t2 <> t -> tasks σ !! t2 = Some tk2 ->
                watching (e_self e) = Some p -> watching tk2 = Some p -> False) as Hself.
      { intros t2 tk2 p Hne Ht2 Hw1 Hw2.
        destruct HB as [[_ Himp]|(q & Htk & Hq & _)].
        - apply Hne. eapply M4; eauto.
        - assert (q = p) as -> by congruence. subst tk.
          pose proof (M2 _ _ _ Et) as Hc. symmetry in Hc. apply contains_false in Hc.
          apply Hc. eauto. }
      intros t1 t2 tk1 tk2 p H1 H2 Hw1 Hw2.
      destruct (Hpool _ _ H1) as [[-> ->]|[[Hne1 Ht1]|(_ & Hn1 & _)]]; [| |congruence];
        destruct (Hpool _ _ H2) as [[-> ->]|[[Hne2 Ht2]|(_ & Hn2 & _)]];
        try congruence.
      * exfalso. eauto.
      * exfalso. eauto.
      * eapply M4; eauto.
  - eapply dir_inv_keep; eauto.
  - eapply dir_inv_keep; eauto.
  - eapply dir_inv_keep; eauto. cbn [tasks]. intros t tk Ht.
    apply lookup_app_Some in Ht as [Ht|[_ Ht]]; [auto|].
    apply list_elem_of_lookup_2, list_elem_of_singleton in Ht. auto.
  - apply Notify_keeps in En as (Hm & Hp & _). eapply dir_inv_keep; eauto.
Qed.

Lemma dir_inv_reachable σ : reachable σ -> dir_inv σ.
Proof.
  apply reachable_ind.
  - intros r o σ0 E. apply NewWatcher_inv in E as (reg0 & o' & ->).
    repeat split; cbn [tasks watcher].
    + intros [|t] tk Ht Hc; simpl in Ht; [|discriminate]. injection Ht as <-. discriminate.
    + intros [|t] p flag Ht; simpl in Ht; discriminate.
    + intros [|t] tk p Ht Hw; simpl in Ht; [|discriminate]. injection Ht as <-. discriminate.
    + intros [|t1] t2 tk1 tk2 p H1 H2 Hw1; simpl in H1; [|discriminate].
      injection H1 as <-. discriminate.
  - intros l σ1 σ2 _. apply dir_inv_step.
Qed.

Lemma pathSet_grows_step l σ σ' p :
  step l σ = Some σ' -> p ∈ pathSet (watcher σ) -> p ∈ pathSet (watcher σ').
Proof.
  intros E Hp. apply step_inv in E as [_ E].
  destruct E as [t i tk e Et Ee ->|t i tk Et Ee ->|d Ed ->| ->|pick x w En ->];
    cbn [watcher]; try assumption.
  - apply task_step_pathSet in Ee as [_ [[-> _]|(q & _ & _ & ->)]]; [assumption|].
    apply elem_of_app. left. assumption.
  - apply Notify_keeps in En as (_ & -> & _). assumption.
Qed.

(** C6: in every execution at most one [watchDir] that has put its path
    into [w.pathSet] and has not returned exists for each path.  A
    goroutine between [w.Lock()] and [w.Unlock()] holds the mutex, so no
    other is there, and the flag it computed is still the membership of its
    path in [w.pathSet] when it comes to append.  A [watchDir] that finds
    its path in [w.pathSet] unlocks and returns: it starts nothing and
    changes nothing but the mutex.  A path in [w.pathSet] stays there in
    every later state. *)
Theorem one_watchDir_per_path σ :
  reachable σ ->
  (forall t1 t2 tk1 tk2 p,
     tasks σ !! t1 = Some tk1 -> tasks σ !! t2 = Some tk2 ->
     watching tk1 = Some p -> watching tk2 = Some p -> t1 = t2) /\
  (forall t tk, tasks σ !! t = Some tk -> critical tk = true ->
     mutex (watcher σ) = Some t) /\
  (forall t p flag, tasks σ !! t = Some (TDir p (DAppend flag)) ->
     flag = contains (pathSet (watcher σ)) p) /\
  (forall t p w, contains (pathSet w) p = true -> mutex w = Some t ->
     task_step t (TDir p DCheck) Tau w =
       Ready (MkEffect w (TDir p (DAppend true)) [] []) /\
     task_step t (TDir p (DAppend true)) Tau w =
       Ready (MkEffect w (TDir p (DUnlock true)) [] []) /\
     task_step t (TDir p (DUnlock true)) Tau w =
       Ready (MkEffect (with_mutex None w) TExit [] [])) /\
  (forall t tk p, tasks σ !! t = Some tk -> watching tk = Some p ->
     p ∈ pathSet (watcher σ)) /\
  (forall ls σ' p, run ls σ = Some σ' ->
     p ∈ pathSet (watcher σ) -> p ∈ pathSet (watcher σ')).
Proof.
  intros Hr. pose proof (dir_inv_reachable _ Hr) as (M1 & M2 & M3 & M4).
  split; [exact M4|]. split; [exact M1|]. split; [exact M2|].
  split; [|split; [exact M3|]].
  - intros t p w Hc Hm. simpl. unfold watchDir_step, Unlock, and_then, goto.
    rewrite Hc, Hm. auto.
  - intros ls σ' p E Hp.
    apply (run_preserves (fun s => p ∈ pathSet (watcher s))
             (fun l s s' Hs Es => pathSet_grows_step l s s' p Es Hs) ls σ σ' Hp E).
Qed.

(** ** The wait group *)















(** ** The relay holds the events in the order they were queued *)






(** ** The failure counter stays in range *)

(** [failTimes] of a [watchDir] inside its loop: at least 1 while it waits
    to retry, never above [MAX_TIMES]. *)
Definition failTimes_ok (tk : task) : Prop :=
  match tk with
  | TDir _ (DBackoff f) => 1 <= f <= MAX_TIMES
  | TDir _ (DGetChildrenW f) | TDir _ (DSelect f _)
  | TDir _ (DPath f _ _ _) | TDir _ (DNode f _ _ _) => 0 <= f <= MAX_TIMES
  | _ => True
  end.

Lemma bump_range f : 0 <= f <= MAX_TIMES -> 1 <= bump f <= MAX_TIMES.
Proof. rewrite bump_min. unfold MAX_TIMES. lia. Qed.

Lemma task_step_failTimes t tk i w e :
  task_step t tk i w = Ready e ->
  failTimes_ok tk -> failTimes_ok (e_self e) /\ Forall failTimes_ok (e_go e).
Proof.
  intros E Hok. task_cases E.
  all: split; [|repeat match goal with |- Forall _ _ => constructor end; exact I].
  all: simpl in *; try exact I; try assumption.
  all: try (apply bump_range; assumption).
  all: unfold MAX_TIMES in *; lia.
Qed.

Lemma failTimes_ok_reachable σ :
  reachable σ -> forall t tk, tasks σ !! t = Some tk -> failTimes_ok tk.
Proof.
  revert σ. apply (reachable_ind (fun σ => forall t tk, tasks σ !! t = Some tk -> failTimes_ok tk)).
  - intros r o σ0 E. apply NewWatcher_inv in E as (reg0 & o' & ->).
    intros [|t] tk Ht; simpl in Ht; [|discriminate]. injection Ht as <-. exact I.
  - intros l σ1 σ2 _ IH E. apply step_inv in E as [_ E].
    destruct E as [t i tk e Et Ee ->|t i tk Et Ee ->|d Ed ->| ->|pick x w En ->];
      cbn [tasks]; try assumption.
    + apply task_step_failTimes in Ee as [Hs Hg]; [|eauto].
      rewrite Forall_forall in Hg.
      intros t' tk' Ht'. apply lookup_pool in Ht' as [[-> ->]|[[Hne Ht']|[_ Ht']]];
        [assumption | eauto |].
      apply Hg. eapply list_elem_of_lookup_2; eauto.
    + intros t' tk' Ht'. apply lookup_app_Some in Ht' as [Ht'|[_ Ht']]; [eauto|].
      apply list_elem_of_lookup_2, list_elem_of_singleton in Ht'. subst. exact I.
Qed.

(** In every execution the failure counter of a [watchDir] that waits to
    retry (266-291) is between 1 and [MAX_TIMES], so the delay it hands to
    [time.After] is between one delay unit and [MAX_TIMES] units; inside
    the loop the counter is never negative and never above [MAX_TIMES]. *)
Theorem backoff_delay_bounded σ t zkPath failTimes :
  reachable σ ->
  0 <= REGISTRY_CONN_DELAY ->
  tasks σ !! t = Some (TDir zkPath (DBackoff failTimes)) ->
  1 <= failTimes <= MAX_TIMES /\
  REGISTRY_CONN_DELAY <= backoff_seconds failTimes <= MAX_TIMES * REGISTRY_CONN_DELAY.
Proof.
  intros Hr Hd Ht. pose proof (failTimes_ok_reachable _ Hr _ _ Ht) as Hok.
  simpl in Hok. split; [exact Hok|]. unfold backoff_seconds, MAX_TIMES in *. nia.
Qed.

(** ** [Close] called twice *)

(** [Close] by one caller: it waits while the wait group's counter is not
    zero; otherwise it returns with [w.done] closed and nothing else
    changed, and does not panic.  A second call after it finds the watcher
    closed, closes nothing and returns the same watcher. *)
Theorem Close_twice_is_Close_once w :
  done_quiet w ->
  (wg w <> 0 -> Close w = Blocks) /\
  (wg w = 0 ->
     exists w', Close w = Ready w' /\ IsClosed w' = true /\ Close w' = Ready w' /\
       w' = with_done (Chan [] (cap (done w)) true) w).
Proof.
  destruct w as [o r ev [b c cl] m ps n]. unfold done_quiet. simpl. intros ->.
  unfold Close, Close_step, IsClosed, recv_ready, chan_recv, chan_close, and_then, goto.
  simpl. split.
  - intros Hw. apply Z.eqb_neq in Hw. destruct cl; simpl; rewrite Hw; reflexivity.
  - intros ->. destruct cl; simpl; eexists.
    + split; [reflexivity|]. split; [reflexivity|]. split; reflexivity.
    + split; [reflexivity|]. split; [reflexivity|]. split; reflexivity.
Qed.

(** ** [contains] and [NewWatcher] *)

(** [contains] answers true exactly for the strings that occur in the
    slice, whatever their position and however often they occur. *)
Theorem contains_iff_occurs (s : list string) (e : string) :
  (contains s e = true <-> e ∈ s) /\
  (contains s e = false <-> e ∉ s) /\
  (forall s', contains (s ++ s') e = contains s e || contains s' e).
Proof.
  split; [apply contains_true|]. split; [apply contains_false|].
  intros s'. induction s as [|a s IH]; simpl; [reflexivity|].
  destruct (String.eqb a e); [reflexivity | exact IH].
Qed.

(** [NewWatcher] refuses a registry that is not a [*Registry].  Otherwise
    the watcher it makes has the given root, or the default root when none
    was given, and the given filter; it is open, its relay is empty so
    [Notify] blocks, nothing is registered or counted, and the only
    goroutine is [watchService] at its start.  It is valid exactly when the
    registry's [done] is not closed and the session is connected. *)
Theorem NewWatcher_starts_open (r0 : Registry) (options : WatchOptions) :
  NewWatcher None options = None /\
  exists σ0,
    NewWatcher (Some r0) options = Some σ0 /\
    Root (opts (watcher σ0)) =
      (if String.eqb (Root options) EmptyString then DefaultServiceRoot
       else Root options) /\
    Filter (opts (watcher σ0)) = Filter options /\
    reg (watcher σ0) = r0 /\
    IsClosed (watcher σ0) = false /\
    (forall pick, Notify pick (watcher σ0) = Blocks) /\
    (forall zkState,
       Valid zkState (watcher σ0) = true <->
       recv_ready (reg_done r0) = false /\
       (zkState = StateConnected \/ zkState = StateHasSession)) /\
    tasks σ0 = [TService SStart] /\
    pathSet (watcher σ0) = [] /\ wg (watcher σ0) = 0 /\ mutex (watcher σ0) = None /\
    relay_log σ0 = [] /\ crashed σ0 = false.
Proof.
  split; [reflexivity|]. eexists. split; [reflexivity|]. cbn [watcher opts].
  split. { destruct (String.eqb (Root options) ""); reflexivity. }
  split. { destruct (String.eqb (Root options) ""); reflexivity. }
  split; [reflexivity|]. split; [reflexivity|].
  split. { intros [|]; reflexivity. }
  split; [|repeat split; reflexivity].
  intros zkState. unfold Valid. cbn [reg]. 
  change (IsClosed _) with false. cbn iota.
  destruct (recv_ready (reg_done r0)).
  - split; [discriminate | intros [? _]; discriminate].
  - destruct zkState; split; try discriminate; auto;
      intros (_ & [?|?]); discriminate.
Qed.

(** ** Only records that pass the filter reach the relay *)

(** The record a goroutine has decoded and will queue, or watches. *)
Definition service_of (tk : task) : option Service :=
  match tk with
  | TNode _ service _ => Some service
  | TDir _ (DNode _ _ _ (HSend _ service _)) => Some service
  | TDir _ (DNode _ _ _ (HSpawn _ service _)) => Some service
  | _ => None
  end.

Lemma task_step_service t tk i w e :
  task_step t tk i w = Ready e ->
  (forall s, service_of (e_self e) = Some s ->
     service_of tk = Some s \/ ServiceAttr_Filter (Filter (opts w)) (Attr s) = true) /\
  Forall (fun tk' => forall s, service_of tk' = Some s -> service_of tk = Some s) (e_go e) /\
  Forall (fun y => service_of tk = Some (Service_ (snd y))) (e_sent e).
Proof.
  intros E. task_cases E.
  all: repeat match goal with
       | Hn : negb _ = false |- _ => apply negb_false_iff in Hn
       end.
  all: split; [|split].
  all: repeat match goal with |- Forall _ _ => constructor end.
  all: try reflexivity.
  all: try (intros ? Hs; simpl in Hs; simplify_eq; auto; fail).
Qed.

Definition passes (conf : ServiceAttr) (s : Service) : Prop :=
  ServiceAttr_Filter conf (Attr s) = true.

Definition filter_inv (conf : ServiceAttr) (σ : world) : Prop :=
  Filter (opts (watcher σ)) = conf /\
  (forall t tk s, tasks σ !! t = Some tk -> service_of tk = Some s -> passes conf s) /\
  Forall (fun y => passes conf (Service_ (snd y))) (relay_log σ).

Lemma filter_inv_step conf l σ σ' :
  filter_inv conf σ -> step l σ = Some σ' -> filter_inv conf σ'.
Proof.
  intros (Hc & Ht & Hl) E. apply step_inv in E as [_ E].
  destruct E as [t i tk e Et Ee ->|t i tk Et Ee ->|d Ed ->| ->|pick x w En ->];
    unfold filter_inv; cbn [tasks watcher relay_log].
  - pose proof (task_step_service _ _ _ _ _ Ee) as (Hs & Hg & Hsent).
    apply task_step_facade in Ee as (_ & _ & _ & Ho).
    rewrite Forall_forall in Hg. rewrite Forall_forall in Hsent.
    split; [congruence|]. split.
    + intros t' tk' s Ht' Hs'.
      apply lookup_pool in Ht' as [[-> ->]|[[Hne Ht']|[_ Ht']]].
      * destruct (Hs s Hs') as [Hold|Hnew]; [eauto|]. unfold passes. congruence.
      * eauto.
      * apply list_elem_of_lookup_2 in Ht'. eauto.
    + apply Forall_app. split; [exact Hl|].
      apply Forall_forall. intros y Hy. eauto.
  - auto.
  - auto.
  - split; [exact Hc|]. split; [|exact Hl].
    intros t tk s Ht' Hs. apply lookup_app_Some in Ht' as [Ht'|[_ Ht']]; [eauto|].
    apply list_elem_of_lookup_2, list_elem_of_singleton in Ht'. subst. discriminate.
  - apply Notify_facade in En as (_ & _ & Ho). split; [congruence|]. auto.
Qed.

(** In every execution every event queued on the relay, added or removed,
    is about a record that passes the watcher's filter, and the filter
    and root the watcher was made with never change. *)
Theorem relay_events_pass_filter r options σ0 ls σ :
  NewWatcher r options = Some σ0 ->
  run ls σ0 = Some σ ->
  opts (watcher σ) = opts (watcher σ0) /\
  Filter (opts (watcher σ)) = Filter options /\
  Forall (fun y => ServiceAttr_Filter (Filter options) (Attr (Service_ (snd y))) = true)
    (relay_log σ).
Proof.
  intros E0 Er.
  assert (filter_inv (Filter options) σ0 /\ opts (watcher σ0) = opts (watcher σ0)) as Hinit.
  { split; [|reflexivity]. unfold NewWatcher in E0. destruct r as [r0|]; [|discriminate].
    injection E0 as <-. split; [|split]; cbn [tasks watcher relay_log opts].
    - destruct (String.eqb (Root options) ""); reflexivity.
    - intros [|t] tk s Ht Hs; simpl in Ht; [|discriminate]. injection Ht as <-. discriminate.
    - constructor. }
  pose proof (run_preserves
    (fun s => filter_inv (Filter options) s /\ opts (watcher s) = opts (watcher σ0))) as Hp.
  destruct (Hp) with (ls := ls) (σ := σ0) (σ' := σ) as [(Hc & _ & Hl) Ho]; try assumption.
  - intros l s1 s2 [Hi Ho] Es. split; [eapply filter_inv_step; eauto|].
    rewrite <- Ho. clear - Es. apply step_inv in Es as [_ Es].
    destruct Es as [t i tk e Et Ee ->|t i tk Et Ee ->|d Ed ->| ->|pick x w En ->];
      cbn [watcher]; try reflexivity.
    + apply task_step_facade in Ee as (_ & _ & _ & Ho). exact Ho.
    + apply Notify_facade in En as (_ & _ & Ho). exact Ho.
  - auto.
Qed.

End Properties.

(** * The concrete watcher: instances and executions that settle the claims *)

Lemma demo_after_reachable (ls : list label) :
  crashed (demo_after ls) = false -> reachable (H := demo) (demo_after ls).
Proof.
  unfold demo_after. destruct demo_start as [σ0|] eqn:E0; [|discriminate].
  destruct (run ls σ0) as [σ|] eqn:Er; [|discriminate].
  intros _. exists (Some (MkRegistry (make_chan 1))),
    (MkWatchOptions (H := demo) "/r"%string ""%string), σ0, ls.
  split; [exact E0 | exact Er].
Qed.

Lemma Notify_error_is_watcher_stopped_witness :
  Forall (fun x => err (H := demo) x = None /\ is_Some (res x))
    (buf (events (watcher (demo_after demo_removed)))).
Proof.
  exact (proj1 (proj2 (Notify_error_is_watcher_stopped (H := demo)
           (demo_after demo_removed) (demo_after_reachable demo_removed eq_refl)))).
Defined.

Lemma Notify_blocks_and_returns_witness :
  Notify (H := demo) CaseDone (watcher (demo_after demo_boot)) = Blocks /\
  Notify (H := demo) CaseEvents (watcher (demo_after demo_boot)) = Blocks.
Proof.
  pose proof (proj1 (Notify_blocks_and_returns (H := demo)
    (demo_after demo_boot) (demo_after_reachable demo_boot eq_refl))) as Hb.
  split; apply (proj2 Hb); split; reflexivity.
Defined.

(** The watcher is stopped and the relay still holds the addition of
    [/r/svc/b]: [Notify] may take the [w.events] case and return it. *)
Lemma Notify_returns_event_after_stop :
  IsClosed (H := demo) (watcher (demo_after demo_stopped)) = true /\
  Notify (H := demo) CaseEvents (watcher (demo_after demo_stopped)) =
    Ready ((Some (MkEventResult (H := demo) ServiceURLAdd "rec"%string), None),
           with_events (Chan [] 32 false) (watcher (demo_after demo_stopped))).
Proof. split; vm_compute; reflexivity. Qed.

Lemma Valid_iff_and_false_after_Close_witness :
  Valid (H := demo) StateConnected (watcher (demo_after demo_stopped)) = false.
Proof.
  apply (proj2 (Valid_iff_and_false_after_Close (H := demo)
           (demo_after demo_stopped) (demo_after_reachable demo_stopped eq_refl))
           3%nat (TClose CWait) eq_refl (or_introl eq_refl) [] _ StateConnected eq_refl).
Defined.

(** The watcher is not stopped and the session is connected, but the
    registry has closed its own [done] channel: [Valid] answers false. *)
Lemma Valid_false_when_registry_closed :
  IsClosed (H := demo) (watcher (demo_after [LRegClose])) = false /\
  crashed (demo_after [LRegClose]) = false /\
  Valid (H := demo) StateConnected (watcher (demo_after [LRegClose])) = false.
Proof. repeat split; vm_compute; reflexivity. Qed.

(** A watch-invalidated notification does not end [watchServiceNode]: it
    goes round again, and a later node-deleted notification makes it
    return true. *)
Lemma watchServiceNode_NotWatching_rearms :
  watchServiceNode
    [Delivers (ZkEvent EventNotWatching "/r/svc/b");
     Delivers (ZkEvent EventNodeDeleted "/r/svc/b")] = Some true.
Proof. reflexivity. Qed.

Lemma watchServiceNode_true_iff_deleted_witness :
  watchServiceNode [Delivers (ZkEvent EventNotWatching "/r/svc/b"); Done_closed] =
  watchServiceNode [Done_closed].
Proof.
  apply (proj1 (proj2 (proj2 (watchServiceNode_true_iff_deleted (H := demo)
           "rec"%string []))) (ZkEvent EventNotWatching "/r/svc/b") [Done_closed]).
  discriminate.
Defined.

Lemma watchService_lookup_failure_is_silent_witness :
  run (H := demo) [LTask 0 Tau; LTask 0 (AnsChildren None); LTask 0 Tau] (demo_after []) =
    Some (MkWorld (watcher (demo_after []))
            [TExit; TDir (Root (opts (watcher (demo_after [])))) DLock] [] false).
Proof.
  apply (watchService_lookup_failure_is_silent (H := demo)
           (Some (MkRegistry (make_chan 1)))
           (MkWatchOptions (H := demo) "/r"%string ""%string) (demo_after [])).
  - reflexivity.
  - vm_compute. discriminate.
Defined.

Lemma failTimes_capped_and_kept_on_reconnect_witness :
  backoff_seconds (H := demo) (bump 20) <= MAX_TIMES * REGISTRY_CONN_DELAY (Collaborators := demo).
Proof.
  apply (failTimes_capped_and_kept_on_reconnect (H := demo)
           "/r"%string "/r/svc"%string 20).
  - vm_compute. discriminate.
  - lia.
Defined.

(** A [watchDir] whose first children-watch call fails and which then gets
    the reconnect signal: it calls [handleZkNodeEvent] with no known
    children, and its failure counter is 2, not 0. *)
Lemma failTimes_kept_on_reconnect :
  watchDir_loop "/r" "/r/svc" 1 [Fails ByReconnect] =
    ([Call_handleZkNodeEvent "/r/svc" []], Some 2).
Proof. reflexivity. Qed.

Lemma known_children_emptied_when_no_failure_witness :
  fst (watchDir_loop "/r" "/r/svc" 1
         [Fails ByTimer;
          Watches ["a"%string] (ByZk (ZkEvent EventNodeChildrenChanged "/r/svc"));
          Watches ["a"%string; "b"%string]
            (ByZk (ZkEvent EventNodeChildrenChanged "/r/svc"))]) =
    [Call_handleZkNodeEvent "/r/svc" ["a"%string]; Call_handleZkNodeEvent "/r/svc" []].
Proof.
  apply (known_children_emptied_when_no_failure "/r"%string "/r/svc"%string 1).
  - reflexivity.
  - lia.
Defined.

Lemma Added_is_queued_before_Removed_witness :
  exists i, (i < 1)%nat /\
    relay_log (demo_after demo_removed) !! i =
      Some ("/r/svc/b"%string, MkEventResult (H := demo) ServiceURLAdd "rec"%string).
Proof.
  apply (proj1 (Added_is_queued_before_Removed (H := demo)
           (demo_after demo_removed) (demo_after_reachable demo_removed eq_refl))
           1%nat "/r/svc/b"%string "rec"%string).
  reflexivity.
Defined.

Lemma one_watchDir_per_path_witness :
  mutex (watcher (demo_after (demo_boot ++ [LTask 1 Tau]))) = Some 1%nat.
Proof.
  apply (proj1 (proj2 (one_watchDir_per_path (H := demo)
           (demo_after (demo_boot ++ [LTask 1 Tau]))
           (demo_after_reachable (demo_boot ++ [LTask 1 Tau]) eq_refl)))
           1%nat (TDir "/r/svc" DCheck)); reflexivity.
Defined.

(** C1: an execution in which [Close] returns while the two [watchDir]
    goroutines that [watchService] started have not yet run: the wait
    group counts a [watchDir] only from inside it, so [w.wg.Wait()] finds
    zero.  [w.done] is closed, yet the [watchDir] of [/r/svc] then
    registers, watches (its [select] at 294 listens on [w.reg.done], not on
    [w.done]) and queues a new event on the relay. *)
Theorem Close_returns_before_watchDir_runs :
  crashed (demo_after demo_close_early) = false /\
  tasks (demo_after demo_close_early) =
    [TExit; TDir "/r/svc" DLock; TDir "/r" DLock; TClose CReturned] /\
  IsClosed (H := demo) (watcher (demo_after demo_close_early)) = true /\
  wg (watcher (demo_after demo_close_early)) = 0 /\
  relay_log (demo_after demo_close_early) = [] /\
  run (H := demo) demo_late_watchDir (demo_after demo_close_early) =
    Some (demo_after (demo_close_early ++ demo_late_watchDir)) /\
  relay_log (demo_after (demo_close_early ++ demo_late_watchDir)) =
    [("/r/svc/b"%string, MkEventResult (H := demo) ServiceURLAdd "rec"%string)] /\
  tasks (demo_after (demo_close_early ++ demo_late_watchDir)) !! 1%nat =
    Some (TDir "/r/svc" (DNode 0 "/r/svc" ["a"%string]
            (HSpawn (H := demo) "/r/svc/b" "rec"%string []))).
Proof. repeat split; vm_compute; reflexivity. Qed.



(** The [watchDir] of [/r/svc] registers and its first children-watch call
    fails. *)
Definition demo_watch_fails : list label :=
  demo_boot ++
  [LTask 1 Tau; LTask 1 Tau; LTask 1 Tau; LTask 1 Tau; LTask 1 Tau;
   LTask 1 (AnsChildren None)].




Lemma backoff_delay_bounded_witness :
  1 <= 2 <= MAX_TIMES /\
  REGISTRY_CONN_DELAY (Collaborators := demo) <= backoff_seconds (H := demo) 2
    <= MAX_TIMES * REGISTRY_CONN_DELAY (Collaborators := demo).
Proof.
  apply (backoff_delay_bounded (H := demo) (demo_after demo_watch_fails)
           1%nat "/r/svc"%string 2
           (demo_after_reachable demo_watch_fails eq_refl)).
  - vm_compute. discriminate.
  - reflexivity.
Defined.

Lemma Close_twice_is_Close_once_witness :
  exists w', Close (H := demo) (watcher (demo_after demo_boot)) = Ready w' /\
    IsClosed w' = true /\ Close w' = Ready w' /\
    w' = with_done (Chan [] (cap (done (watcher (demo_after demo_boot)))) true)
           (watcher (demo_after demo_boot)).
Proof.
  apply (proj2 (Close_twice_is_Close_once (H := demo)
           (watcher (demo_after demo_boot)) eq_refl)).
  reflexivity.
Defined.

Lemma relay_events_pass_filter_witness :
  opts (watcher (demo_after demo_removed)) = opts (watcher (demo_after [])) /\
  Filter (opts (watcher (demo_after demo_removed))) = ""%string /\
  Forall (fun y => ServiceAttr_Filter (Collaborators := demo) ""%string
                     (Attr (Service_ (snd y))) = true)
    (relay_log (demo_after demo_removed)).
Proof.
  apply (relay_events_pass_filter (H := demo)
           (Some (MkRegistry (make_chan 1)))
           (MkWatchOptions (H := demo) "/r"%string ""%string)
           (demo_after []) demo_removed (demo_after demo_removed)); reflexivity.
Defined.

(** * The sharded map (sync/hash_map.go)

    [HashMap] spreads its keys over [shardNum] maps by a hash function and
    keeps a counter.  A shard, a [sync.Map], is a finite map; a method is a
    function from the map before the call to its result and the map after
    it, [None] when the call panics (an index out of range). *)

Module HashMap.
Section HashMap.
Context {K V : Type} `{Countable K} `{EqDecision V}.


(** [int64] arithmetic of [atomic.AddInt64]. *)
Definition wrap64 (z : Z) : Z := (z + 2 ^ 63) mod 2 ^ 64 - 2 ^ 63.

(** The conversion [uint(x)] of an [int] or [uint32] on a 64-bit platform. *)
Definition uint (z : Z) : Z := z mod 2 ^ 64.

(** [hash] gives the [uint32] the hash function returns. *)
Record HashMap := MkHashMap {
  size : Z;
  shardNum : Z;
  hash : K -> Z;
  shard : list (gmap K V);
}.


(** The index computed at 42. *)
Definition shard_index (m : HashMap) (key : K) : nat :=
  Z.to_nat (uint (hash m key) mod uint (shardNum m)).

(** [GetShard] (41-43) *)
Definition GetShard (m : HashMap) (key : K) : option (gmap K V) :=
  shard m !! shard_index m key.

(** The map after a method has changed the shard of [key] to [s] and added
    [d] to the counter. *)
Definition update (m : HashMap) (key : K) (s : gmap K V) (d : Z) : HashMap :=
  MkHashMap (wrap64 (size m + d)) (shardNum m) (hash m)
    (<[shard_index m key := s]> (shard m)).






(** [Get] (101-105): the value, or [None] for [ok == false]. *)
Definition Get (m : HashMap) (key : K) : option (option V) :=
  shard ← GetShard m key;
  Some (shard !! key).



(** [Remove] (122-129) *)
Definition Remove (m : HashMap) (key : K) : option HashMap :=
  shard ← GetShard m key;
  match shard !! key with
  | Some _ => Some (update m key (delete key shard) (-1))
  | None => Some m
  end.

(** [Pop] (132-141) *)
Definition Pop (m : HashMap) (key : K) : option (option V * HashMap) :=
  shard ← GetShard m key;
  match shard !! key with
  | Some v => Some (Some v, update m key (delete key shard) (-1))
  | None => Some (None, m)
  end.



(** ** Properties *)




















(** [Pop] answers what [Get] answers and leaves the map as [Remove]
    leaves it. *)
Theorem Pop_is_Get_then_Remove (m : HashMap) (key : K) :
  Pop m key =
    match Get m key, Remove m key with
    | Some o, Some m' => Some (o, m')
    | _, _ => None
    end.
Proof.
  unfold Pop, Get, Remove. destruct (GetShard m key) as [s|]; [|reflexivity].
  simpl. destruct (s !! key); reflexivity.
Qed.




End HashMap.

(** ** A concrete map: natural numbers as keys and values, hashed by
    themselves, made with a request for 4 shards *)










End HashMap.
